(** * firebase-helpers: the Firestore utility layer

    A shallow embedding of [FirestoreUtil] (queryData, _applyQueryConstraints,
    _applyCursor, docQuery, collectionQuery, cursorQuery, deleteCollection,
    _deleteQueryBatch), of the constraint factories [where] / [orderBy] and of
    the types of [types.ts], together with the properties of the cursor
    protocol and of the batched deletion.

    The Firestore client itself is an external collaborator.  It is modelled
    by a document table, a plan of injected failures and an abstract
    interpretation of filter and sort clauses ([QueryEngine]). *)

From Stdlib Require Import ZArith Lia Ascii.
From stdpp Require Import base gmap list strings fin_maps pretty.

Local Open Scope Z_scope.

(* ===================================================================== *)
(** ** JavaScript values and objects                                      *)
(* ===================================================================== *)

(** Field values of a document payload.  The helpers never inspect a
    payload value; only the [id] and [ref] strings are ever produced. *)
#[local] Unset Elimination Schemes.
Inductive value :=
  | VNull
  | VBool (b : bool)
  | VNum (n : Z)
  | VStr (s : string)
  | VArr (items : list value)
  | VMap (fields : list (string * value)).
#[local] Set Elimination Schemes.

(** A plain JS object used as a record of named fields. *)
Abbreviation Obj := (gmap string value).

(* ===================================================================== *)
(** ** types.ts                                                           *)
(* ===================================================================== *)

Inductive WhereFilterOp :=
  | OpLt | OpLe | OpEq | OpNe | OpGe | OpGt
  | OpArrayContains | OpIn | OpNotIn | OpArrayContainsAny.

Inductive OrderByDirection := Desc | Asc.

(** [QueryConstraint = WhereContraint | OrderByConstraint]; the [type] tag
    of the TypeScript union is the constructor. *)
Inductive QueryConstraint :=
  | WhereContraint (fieldPath : string) (opStr : option WhereFilterOp)
                   (value_ : option value)
  | OrderByConstraint (fieldPath : string)
                      (directionStr : option OrderByDirection).

(** [QueryCursor]: [startAfter] is the optional reference string. *)
Record QueryCursor := mkCursor {
  interval : Z;
  hasNext : bool;
  startAfter : option string
}.

(* ===================================================================== *)
(** ** constraints.ts                                                     *)
(* ===================================================================== *)

Definition where_ (fieldPath : string) (opStr : WhereFilterOp) (v : value)
  : QueryConstraint :=
  WhereContraint fieldPath (Some opStr) (Some v).

Definition orderBy (fieldPath : string) (directionStr : option OrderByDirection)
  : QueryConstraint :=
  OrderByConstraint fieldPath directionStr.

(* ===================================================================== *)
(** ** The storage engine                                                 *)
(* ===================================================================== *)

Inductive FsError :=
  | EUnavailable
  | EInvalidArgument
  | ENotFound
  | EFailedPrecondition
  | EOther (msg : string).

Inductive Result (A : Type) :=
  | Ok (a : A)
  | Err (e : FsError).
Arguments Ok {A} a.
Arguments Err {A} e.

(** A stored document: the collection it lives in, its identifier within
    the collection and its payload. *)
Record Doc := mkDoc {
  doc_collection : string;
  doc_id : string;
  doc_data : Obj
}.

(** [snapshot.ref.path]: the fully qualified path of the document. *)
Definition doc_path (d : Doc) : string :=
  doc_collection d +:+ "/" +:+ doc_id d.

(** What [DocumentReference.get] answers: the path asked for, and the
    document found there, if any ([snapshot.exists]). *)
Record DocumentSnapshot := mkSnap {
  snap_path : string;
  snap_doc : option Doc
}.

(** The engine state: the document table, each collection listed in the
    order of the system-assigned identity field [__name__], and the
    outcomes planned for the coming engine calls ([Some e]: the call fails
    with [e]; an exhausted plan means no failure). *)
Record Firestore := mkFirestore {
  docs : list Doc;
  faults : list (option FsError)
}.

(** A transaction handle reads its own consistent view of the table. *)
Record Transaction := mkTxn {
  txn_docs : list Doc
}.

(** The clauses accumulated by the chainable [where] / [orderBy]. *)
Inductive Clause :=
  | ClWhere (fieldPath : string) (opStr : option WhereFilterOp)
            (v : option value)
  | ClOrderBy (fieldPath : string) (directionStr : option OrderByDirection).

(** A query handle.  Every chainable method answers a new handle. *)
Record Query := mkQuery {
  q_collection : string;
  q_clauses : list Clause;
  q_startAfter : option DocumentSnapshot;
  q_limit : option Z
}.

Definition collection (refStr : string) : Query :=
  mkQuery refStr [] None None.

Definition Query_where (q : Query) (f : string) (op : option WhereFilterOp)
    (v : option value) : Query :=
  mkQuery (q_collection q) (q_clauses q ++ [ClWhere f op v])
          (q_startAfter q) (q_limit q).

Definition Query_orderBy (q : Query) (f : string)
    (d : option OrderByDirection) : Query :=
  mkQuery (q_collection q) (q_clauses q ++ [ClOrderBy f d])
          (q_startAfter q) (q_limit q).

Definition Query_limit (q : Query) (n : Z) : Query :=
  mkQuery (q_collection q) (q_clauses q) (q_startAfter q) (Some n).

(** The segments of a path: the text between its slashes. *)
Fixpoint segments_from (cur s : string) : list string :=
  match s with
  | EmptyString => [cur]
  | String a s' =>
      if Ascii.eqb a "/"%char then cur :: segments_from "" s'
      else segments_from (cur +:+ String a "") s'
  end.

Definition segments (s : string) : list string := segments_from "" s.

(** A document path, in canonical form: an even number of segments, none
    of them empty.  [""] and a collection path such as ["items"] are not.
    A record is known here under this one spelling of its path; a spelling
    with a leading or a trailing slash is not taken for it. *)
Definition is_document_path (s : string) : bool :=
  forallb (λ g, negb (String.eqb g "")) (segments s) &&
  Nat.even (length (segments s)).

(** Whether the record of a snapshot lies directly in the collection the
    query runs over; for a missing record its path says so. *)
Definition in_query_collection (q : Query) (s : DocumentSnapshot) : bool :=
  match snap_doc s with
  | Some d => bool_decide (doc_collection d = q_collection q)
  | None =>
      bool_decide (removelast (segments (snap_path s))
                   = segments (q_collection q))
  end.

(** [startAfter(snapshot)]: the client refuses the snapshot of a record
    outside the collection of the query; the snapshot of a missing record
    of the collection is accepted and positions the query by its path. *)
Definition Query_startAfter (q : Query) (s : DocumentSnapshot) : Result Query :=
  if in_query_collection q s
  then Ok (mkQuery (q_collection q) (q_clauses q) (Some s) (q_limit q))
  else Err EInvalidArgument.

(** The engine's reading of filter and sort clauses is its own business.
    What the helpers rely on: without clauses, and under the identity
    ordering, a collection comes back as it is listed; an accepted clause
    list selects and reorders records but never invents or repeats one.
    So is the place a start cursor takes in a result list: a cursor that is
    the snapshot of a record of the list stands at that record, and what
    follows it is answered; where the cursor of a record that is not in
    the list stands (a missing record, a record the filters exclude) is for
    the engine to say, and it may refuse.  In every case what is answered
    is part of the list, in the order of the list. *)
Class QueryEngine := {
  eval_clauses : list Clause → list Doc → Result (list Doc);
  eval_clauses_nil : ∀ l, eval_clauses [] l = Ok l;
  eval_clauses_name : ∀ l,
    eval_clauses [ClOrderBy "__name__" None] l = Ok l;
  eval_clauses_sub : ∀ cs l r, eval_clauses cs l = Ok r → r ⊆+ l;
  eval_startAfter :
    list Clause → DocumentSnapshot → list Doc → Result (list Doc);
  eval_startAfter_at : ∀ cs pre d suf,
    doc_path d ∉ map doc_path pre →
    eval_startAfter cs (mkSnap (doc_path d) (Some d)) (pre ++ d :: suf)
    = Ok suf;
  eval_startAfter_sub : ∀ cs s l r,
    eval_startAfter cs s l = Ok r → r `sublist_of` l
}.

(** The largest number of writes one atomic batch may carry. *)
Definition max_batch : nat := 500.

(** State and failure threaded through the asynchronous calls. *)
Definition M (A : Type) : Type := Firestore → Result A * Firestore.

Definition ret {A} (a : A) : M A := λ fs, (Ok a, fs).

Definition bind {A B} (m : M A) (k : A → M B) : M B :=
  λ fs, match m fs with
        | (Ok a, fs') => k a fs'
        | (Err e, fs') => (Err e, fs')
        end.

Definition lift {A} (r : Result A) : M A := λ fs, (r, fs).

Notation "x <- m ;; k" := (bind m (λ x, k))
  (at level 100, m at next level, right associativity).

(** Every engine call consumes the next planned outcome. *)
Definition engine_call : M unit :=
  λ fs, match faults fs with
        | [] => (Ok tt, fs)
        | None :: rest => (Ok tt, mkFirestore (docs fs) rest)
        | Some e :: rest => (Err e, mkFirestore (docs fs) rest)
        end.

Definition find_doc (path : string) (l : list Doc) : option Doc :=
  list_find (λ d, doc_path d = path) l ≫= (λ p, Some p.2).

(** [firestore.doc(path)]: the client throws, before any storage call,
    for a string that is not a document path.  The path of a stored record
    is a document path by what a record is; the type of the table does not
    say so, and a path under which the table holds a record is let
    through. *)
Definition firestore_doc (path : string) (table : list Doc) : Result unit :=
  if is_document_path path ||
     match find_doc path table with Some _ => true | None => false end
  then Ok tt
  else Err EInvalidArgument.

(** [firestore.doc(path).get()] *)
Definition doc_get (path : string) : M DocumentSnapshot :=
  _ <- (λ fs, (firestore_doc path (docs fs), fs)) ;;
  _ <- engine_call ;;
  λ fs, (Ok (mkSnap path (find_doc path (docs fs))), fs).

(** [t.get(firestore.doc(path))] *)
Definition txn_get (t : Transaction) (path : string) : M DocumentSnapshot :=
  _ <- lift (firestore_doc path (txn_docs t)) ;;
  _ <- engine_call ;;
  ret (mkSnap path (find_doc path (txn_docs t))).

(** The records of a result list that follow the first record at [path];
    used where the list holds such a record. *)
Fixpoint start_after (path : string) (l : list Doc) : list Doc :=
  match l with
  | [] => []
  | d :: l' => if decide (doc_path d = path) then l' else start_after path l'
  end.

Definition in_collection (c : string) (l : list Doc) : list Doc :=
  filter (λ d, doc_collection d = c) l.

Definition apply_limit (lim : option Z) (l : list Doc) : Result (list Doc) :=
  match lim with
  | Some n => if n <? 0 then Err EInvalidArgument else Ok (take (Z.to_nat n) l)
  | None => Ok l
  end.

Section Engine.
Context `{QueryEngine}.

(** The records of a result list from the start cursor on. *)
Definition apply_startAfter (cs : list Clause) (sa : option DocumentSnapshot)
    (l : list Doc) : Result (list Doc) :=
  match sa with
  | Some s => eval_startAfter cs s l
  | None => Ok l
  end.

(** What a query answers over a document table. *)
Definition run_query (q : Query) (table : list Doc) : Result (list Doc) :=
  match eval_clauses (q_clauses q) (in_collection (q_collection q) table) with
  | Ok base =>
      match apply_startAfter (q_clauses q) (q_startAfter q) base with
      | Ok rows => apply_limit (q_limit q) rows
      | Err e => Err e
      end
  | Err e => Err e
  end.

(** [query.get()] *)
Definition query_get (q : Query) : M (list Doc) :=
  _ <- engine_call ;;
  λ fs, (run_query q (docs fs), fs).

End Engine.

Definition remove_docs (refs : list string) (l : list Doc) : list Doc :=
  filter (λ d, doc_path d ∉ refs) l.

(** [batch.commit()] of a batch of deletes: all of them or none. *)
Definition batch_commit (refs : list string) : M unit :=
  _ <- engine_call ;;
  λ fs, if (max_batch <? length refs)%nat
        then (Err EInvalidArgument, fs)
        else (Ok tt, mkFirestore (remove_docs refs (docs fs)) (faults fs)).

(* ===================================================================== *)
(** ** FirestoreUtil                                                      *)
(* ===================================================================== *)

(** [queryData]: [{ ...qr }] then [delete clone.id; delete clone.ref]. *)
Definition queryData (qr : Obj) : Obj :=
  delete "ref" (delete "id" qr).

Definition apply_constraint (q : Query) (c : QueryConstraint) : Query :=
  match c with
  | OrderByConstraint f d => Query_orderBy q f d
  | WhereContraint f op v => Query_where q f op v
  end.

(** The clause a constraint contributes. *)
Definition clause_of (c : QueryConstraint) : Clause :=
  match c with
  | OrderByConstraint f d => ClOrderBy f d
  | WhereContraint f op v => ClWhere f op v
  end.

Definition _applyQueryConstraints (query : Query)
    (queryConstraints : list QueryConstraint) : Query :=
  fold_left apply_constraint queryConstraints query.

(** JS truthiness of an optional string and of a number. *)
Definition truthy_str (s : option string) : bool :=
  match s with
  | Some s => negb (String.eqb s "")
  | None => false
  end.

Definition truthy_num (n : Z) : bool := negb (n =? 0).

Definition _applyCursor (query : Query) (cursor : QueryCursor) : M Query :=
  q <- (if truthy_str (startAfter cursor)
        then doc <- doc_get (default "" (startAfter cursor)) ;;
             lift (Query_startAfter query doc)
        else ret query) ;;
  ret (if truthy_num (interval cursor)
       then Query_limit q (interval cursor)
       else q).

(** [{ ...snapshot.data(), id: snapshot.id, ref: snapshot.ref.path }] *)
Definition to_QR (d : Doc) : Obj :=
  <["ref" := VStr (doc_path d)]> (<["id" := VStr (doc_id d)]> (doc_data d)).

Definition docQuery (refStr : string) (t : option Transaction)
  : M (option Obj) :=
  snapshot <- match t with
              | Some t => txn_get t refStr
              | None => doc_get refStr
              end ;;
  ret (match snap_doc snapshot with
       | Some d => Some (to_QR d)
       | None => None
       end).

(** The default cursor of [cursorQuery]. *)
Definition default_cursor : QueryCursor := mkCursor 10 true None.

(** [item.ref] of a result item. *)
Definition item_ref (item : Obj) : option string :=
  match item !! "ref" with
  | Some (VStr s) => Some s
  | _ => None
  end.

(** The cursor update at the end of [cursorQuery]:
    [{ ...cursor, startAfter, hasNext }]. *)
Definition update_cursor (cursor : QueryCursor) (data : list Obj)
  : QueryCursor :=
  let _length := length data in
  let startAfter' :=
    if (_length =? 0)%nat then startAfter cursor
    else data !! (_length - 1)%nat ≫= item_ref in
  let hasNext' := Z.of_nat _length =? interval cursor in
  mkCursor (interval cursor) hasNext' startAfter'.

Section Util.
Context `{QueryEngine}.

Definition collectionQuery (refStr : string)
    (queryConstraints : list QueryConstraint) (cursor : option QueryCursor)
  : M (list Obj) :=
  let ref := collection refStr in
  let q0 := _applyQueryConstraints ref queryConstraints in
  q <- match cursor with
       | Some c => _applyCursor q0 c
       | None => ret q0
       end ;;
  querySnapshot <- query_get q ;;
  ret (map to_QR querySnapshot).

Definition cursorQuery (refStr : string)
    (queryConstraints : list QueryConstraint) (_cursor : option QueryCursor)
  : M (list Obj * QueryCursor) :=
  let cursor := default default_cursor _cursor in
  data <- collectionQuery refStr queryConstraints (Some cursor) ;;
  ret (data, update_cursor cursor data).

End Util.

(* ===================================================================== *)
(** ** deleteCollection                                                   *)
(* ===================================================================== *)

Inductive PromiseState :=
  | Pending
  | Resolved (v : bool)
  | Rejected (e : FsError).

(** What one call of [deleteCollection] leaves behind: the state of the
    promise it returned, the number of query rounds issued, the page each
    successful round got back, the references whose batch was committed,
    a rejection nobody handled, and the engine state. *)
Record DeleteRun := mkRun {
  run_promise : PromiseState;
  run_rounds : nat;
  run_snapshots : list (list string);
  run_deleted : list string;
  run_unhandled : option FsError;
  run_store : Firestore
}.

Section Delete.
Context `{QueryEngine}.

(** The body of [_deleteQueryBatch] up to the point where it either
    resolves (flag [true]) or hands the next round to [process.nextTick]
    (flag [false]), with the references of the page it was given. *)
Definition delete_round (query : Query) : M (list string * bool) :=
  snapshot <- query_get query ;;
  let batchSize := length snapshot in
  let refs := map doc_path snapshot in
  if (batchSize =? 0)%nat then ret (refs, true)
  else _ <- batch_commit refs ;; ret (refs, false).

(** [_deleteQueryBatch(query, resolve)].  [caught] tells whether the
    promise of this invocation has a [.catch(reject)] attached: the call
    made by [deleteCollection] has one, the calls made from
    [process.nextTick] have none.  The fuel bounds the number of rounds. *)
Fixpoint _deleteQueryBatch (fuel : nat) (caught : bool) (query : Query)
    (fs : Firestore) : option DeleteRun :=
  match fuel with
  | O => None
  | S fuel' =>
    match delete_round query fs with
    | (Ok (refs, true), fs') =>
        Some (mkRun (Resolved true) 1 [refs] [] None fs')
    | (Ok (refs, false), fs') =>
        match _deleteQueryBatch fuel' false query fs' with
        | Some r =>
            Some (mkRun (run_promise r) (S (run_rounds r))
                        (refs :: run_snapshots r) (refs ++ run_deleted r)
                        (run_unhandled r) (run_store r))
        | None => None
        end
    | (Err e, fs') =>
        if caught
        then Some (mkRun (Rejected e) 1 [] [] None fs')
        else Some (mkRun Pending 1 [] [] (Some e) fs')
    end
  end.

(** Every round that goes on deletes at least one document, so the size of
    the table bounds the number of rounds. *)
Definition deleteCollection (refStr : string) (batchSize : Z)
    (fs : Firestore) : option DeleteRun :=
  let collectionRef := collection refStr in
  let query := Query_limit (Query_orderBy collectionRef "__name__" None)
                           batchSize in
  _deleteQueryBatch (S (length (docs fs))) true query fs.

(* ===================================================================== *)
(** ** A pagination session                                               *)
(* ===================================================================== *)

(** The caller's loop: call [cursorQuery], pass the cursor back, stop when
    [hasNext] is false.  Answers the pages in the order they came. *)
Fixpoint paginate (fuel : nat) (refStr : string)
    (queryConstraints : list QueryConstraint) (cursor : option QueryCursor)
    (fs : Firestore) : option (Result (list (list Obj)) * Firestore) :=
  match fuel with
  | O => None
  | S fuel' =>
    match cursorQuery refStr queryConstraints cursor fs with
    | (Ok (data, c), fs') =>
        if hasNext c
        then match paginate fuel' refStr queryConstraints (Some c) fs' with
             | Some (Ok pages, fs'') => Some (Ok (data :: pages), fs'')
             | other => other
             end
        else Some (Ok [data], fs')
    | (Err e, fs') => Some (Err e, fs')
    end
  end.

(** [n] successive calls, each given the cursor the previous one answered,
    whatever [hasNext] says. *)
Fixpoint advance (n : nat) (refStr : string)
    (queryConstraints : list QueryConstraint) (cursor : QueryCursor)
  : M QueryCursor :=
  match n with
  | O => ret cursor
  | S n' =>
    r <- cursorQuery refStr queryConstraints (Some cursor) ;;
    advance n' refStr queryConstraints r.2
  end.

End Delete.

(** [ceil(n / b)] *)
Definition ceil_div (n : nat) (b : Z) : Z := (Z.of_nat n + b - 1) / b.

(* ===================================================================== *)
(** ** A small engine                                                     *)
(* ===================================================================== *)

Definition scalar_eqb (a b : value) : bool :=
  match a, b with
  | VNull, VNull => true
  | VBool x, VBool y => Bool.eqb x y
  | VNum x, VNum y => x =? y
  | VStr x, VStr y => String.eqb x y
  | _, _ => false
  end.

Definition field_is (f : string) (v : value) (d : Doc) : bool :=
  match doc_data d !! f with
  | Some w => scalar_eqb w v
  | None => false
  end.

(** An engine that knows equality filters on scalar fields and the
    ascending identity order, and refuses every other clause. *)
Fixpoint basic_eval (cs : list Clause) (l : list Doc) : Result (list Doc) :=
  match cs with
  | [] => Ok l
  | ClWhere f (Some OpEq) (Some v) :: cs' =>
      basic_eval cs' (filter (λ d, field_is f v d = true) l)
  | ClOrderBy f (None | Some Asc) :: cs' =>
      if String.eqb f "__name__" then basic_eval cs' l
      else Err EFailedPrecondition
  | _ => Err EFailedPrecondition
  end.

(* ===================================================================== *)
(** ** Objects by reference                                               *)
(* ===================================================================== *)

(** The same functions over a heap of JS objects, where arguments are
    references and a function could write through them.  A cell is a result
    item, a cursor, a constraint, or an array of references. *)
Module Heap.

Definition loc := nat.

Inductive cell :=
  | CObj (o : Obj)
  | CCursor (c : QueryCursor)
  | CConstraint (c : QueryConstraint)
  | CArray (items : list loc).

Abbreviation heap := (gmap loc cell).

(** Heap, engine state and failure: [None] is a read of a cell of the wrong
    shape, which the TypeScript types exclude. *)
Definition HM (A : Type) : Type :=
  heap → Firestore → option (Result A * heap * Firestore).

Definition hret {A} (a : A) : HM A := λ h fs, Some (Ok a, h, fs).

Definition hbind {A B} (m : HM A) (k : A → HM B) : HM B :=
  λ h fs, match m h fs with
          | Some (Ok a, h', fs') => k a h' fs'
          | Some (Err e, h', fs') => Some (Err e, h', fs')
          | None => None
          end.

Notation "x <~ m ;; k" := (hbind m (λ x, k))
  (at level 100, m at next level, right associativity).

(** An engine call leaves the heap alone. *)
Definition engine {A} (m : M A) : HM A :=
  λ h fs, let '(r, fs') := m fs in Some (r, h, fs').

(** An object literal, array literal or spread: a new cell. *)
Definition alloc (c : cell) : HM loc :=
  λ h fs, let l := fresh (dom h) in Some (Ok l, <[l := c]> h, fs).

Definition read_obj (l : loc) : HM Obj :=
  λ h fs, match h !! l with
          | Some (CObj o) => Some (Ok o, h, fs)
          | _ => None
          end.

Definition read_cursor (l : loc) : HM QueryCursor :=
  λ h fs, match h !! l with
          | Some (CCursor c) => Some (Ok c, h, fs)
          | _ => None
          end.

Definition read_constraint (l : loc) : HM QueryConstraint :=
  λ h fs, match h !! l with
          | Some (CConstraint c) => Some (Ok c, h, fs)
          | _ => None
          end.

Definition read_array (l : loc) : HM (list loc) :=
  λ h fs, match h !! l with
          | Some (CArray ls) => Some (Ok ls, h, fs)
          | _ => None
          end.

(** [delete o.k]: the one write through a reference in the source. *)
Definition delete_field (l : loc) (k : string) : HM unit :=
  λ h fs, match h !! l with
          | Some (CObj o) => Some (Ok tt, <[l := CObj (delete k o)]> h, fs)
          | _ => None
          end.

(** [arr.push(x)] *)
Definition push (l : loc) (x : loc) : HM unit :=
  λ h fs, match h !! l with
          | Some (CArray ls) => Some (Ok tt, <[l := CArray (ls ++ [x])]> h, fs)
          | _ => None
          end.

(** [const clone = { ...qr }; delete clone.id; delete clone.ref;
     return clone] *)
Definition queryData (qr : loc) : HM loc :=
  o <~ read_obj qr ;;
  clone <~ alloc (CObj o) ;;
  _ <~ delete_field clone "id" ;;
  _ <~ delete_field clone "ref" ;;
  hret clone.

(** [queryConstraints.forEach(...)] over the references held by the array. *)
Fixpoint forEach_constraint (q : Query) (ls : list loc) : HM Query :=
  match ls with
  | [] => hret q
  | l :: ls' =>
      constraint <~ read_constraint l ;;
      forEach_constraint (apply_constraint q constraint) ls'
  end.

Definition _applyQueryConstraints (query : Query) (queryConstraints : loc)
  : HM Query :=
  ls <~ read_array queryConstraints ;;
  forEach_constraint query ls.

Definition _applyCursor (query : Query) (cursor : loc) : HM Query :=
  c <~ read_cursor cursor ;;
  engine (_applyCursor query c).

(** [querySnapshot.forEach(snapshot => data.push({...}))] *)
Fixpoint push_items (data : loc) (snaps : list Doc) : HM unit :=
  match snaps with
  | [] => hret tt
  | d :: snaps' =>
      item <~ alloc (CObj (to_QR d)) ;;
      _ <~ push data item ;;
      push_items data snaps'
  end.

Section Util.
Context `{QueryEngine}.

Definition collectionQuery (refStr : string) (queryConstraints : loc)
    (cursor : option loc) : HM loc :=
  q0 <~ _applyQueryConstraints (collection refStr) queryConstraints ;;
  q <~ match cursor with
       | Some c => _applyCursor q0 c
       | None => hret q0
       end ;;
  querySnapshot <~ engine (query_get q) ;;
  data <~ alloc (CArray []) ;;
  _ <~ push_items data querySnapshot ;;
  hret data.

(** [data[_length - 1].ref] *)
Definition last_ref (items : list loc) : HM (option string) :=
  match items !! (length items - 1)%nat with
  | Some l => o <~ read_obj l ;; hret (item_ref o)
  | None => hret None
  end.

Definition cursorQuery (refStr : string) (queryConstraints : loc)
    (_cursor : option loc) : HM (loc * loc) :=
  cursor <~ match _cursor with
            | Some c => hret c
            | None => alloc (CCursor default_cursor)
            end ;;
  data <~ collectionQuery refStr queryConstraints (Some cursor) ;;
  items <~ read_array data ;;
  c <~ read_cursor cursor ;;
  let _length := length items in
  startAfter' <~ (if (_length =? 0)%nat then hret (startAfter c)
                  else last_ref items) ;;
  let hasNext' := Z.of_nat _length =? interval c in
  result <~ alloc (CCursor (mkCursor (interval c) hasNext' startAfter')) ;;
  hret (data, result).

End Util.

(** A computation that leaves the cells of [h0] as they are, whatever else
    the heap holds when it starts. *)
Definition keeps {A} (h0 : heap) (m : HM A) : Prop :=
  ∀ h fs r h' fs', h0 ⊆ h → m h fs = Some (r, h', fs') → h0 ⊆ h'.

(** A computation that leaves the whole heap as it was. *)
Definition read_only {A} (m : HM A) : Prop :=
  ∀ h fs r h' fs', m h fs = Some (r, h', fs') → h' = h.

End Heap.

(* ===================================================================== *)
(** ** Vocabulary of the properties, and sample data                      *)
(* ===================================================================== *)

(** An item carries the identity of the record [d]: its [id] and [ref]
    are those of the snapshot, each present once among its fields, and the
    rest is the payload. *)
Definition carries_identity (d : Doc) (item : Obj) : Prop :=
  item !! "id" = Some (VStr (doc_id d)) ∧
  item !! "ref" = Some (VStr (doc_path d)) ∧
  (∀ k, k ≠ "id" → k ≠ "ref" → item !! k = doc_data d !! k) ∧
  filter (λ kv, kv.1 = "id") (map_to_list item) = [("id", VStr (doc_id d))] ∧
  filter (λ kv, kv.1 = "ref") (map_to_list item)
    = [("ref", VStr (doc_path d))].

(** The query [deleteCollection] builds once and runs every round. *)
Definition delete_query (refStr : string) (batchSize : Z) : Query :=
  Query_limit (Query_orderBy (collection refStr) "__name__" None) batchSize.

(** Where the small engine puts a start cursor: at the record of that
    path when the list has one, and otherwise by the path itself in the
    identity order, the only order it knows. *)
Definition basic_startAfter (s : DocumentSnapshot) (l : list Doc)
  : list Doc :=
  if bool_decide (snap_path s ∈ map doc_path l)
  then start_after (snap_path s) l
  else filter (λ d, String.ltb (snap_path s) (doc_path d) = true) l.

(** The small engine is an engine. *)
#[local, refine] Instance basic_engine : QueryEngine := {
  eval_clauses := basic_eval;
  eval_clauses_nil := λ l, eq_refl;
  eval_clauses_name := λ l, eq_refl;
  eval_startAfter := λ _ s l, Ok (basic_startAfter s l)
}.
Proof.
  - intros cs. induction cs as [|c cs IH]; intros l r; simpl.
    + by intros [= <-].
    + destruct c as [f [[]|] [v|] | f [[]|]]; try done.
      * intros Hr. apply IH in Hr. etransitivity; [done|].
        apply sublist_submseteq, sublist_filter.
      * destruct (String.eqb f "__name__"); [apply IH | done].
      * destruct (String.eqb f "__name__"); [apply IH | done].
  - intros _ pre d suf Hpre. f_equal. unfold basic_startAfter. simpl.
    rewrite bool_decide_eq_true_2.
    2:{ rewrite map_app. apply elem_of_app. right. simpl. left. }
    induction pre as [|x pre IH]; simpl.
    + by rewrite decide_True.
    + simpl in Hpre. apply not_elem_of_cons in Hpre as [Hx Hpre].
      rewrite decide_False by done. by apply IH.
  - intros _ s l r [= <-]. unfold basic_startAfter.
    destruct (bool_decide _); [|apply sublist_filter].
    induction l as [|d l IH]; simpl; [done|].
    case_decide; by apply sublist_cons.
Defined.

(** A collection [items] of three records; the second one has payload
    fields named like the identity metadata. *)
Definition sample_docs : list Doc :=
  [ mkDoc "items" "a" {[ "n" := VNum 1 ]};
    mkDoc "items" "b" {[ "id" := VStr "mine"; "ref" := VNum 7 ]};
    mkDoc "items" "c" ∅ ].

Definition sample_store : Firestore := mkFirestore sample_docs [].

(** A collection of [n] records named by their rank. *)
Definition numbered (n : nat) : list Doc :=
  map (λ i, mkDoc "items" (pretty i) ∅) (seq 0 n).

(** Two records, batch size 1, and an engine whose third call (the query of
    the second round) fails. *)
Definition two_items : list Doc :=
  [ mkDoc "items" "a" ∅; mkDoc "items" "b" ∅ ].

Definition fails_in_round_2 : Firestore :=
  mkFirestore two_items [None; None; Some EUnavailable].

(** A heap holding a cursor and an empty constraint list. *)
Definition sample_heap : Heap.heap :=
  {[ 0%nat := Heap.CCursor (mkCursor 2 true None);
     1%nat := Heap.CArray [] ]}.

(* ===================================================================== *)
(** ** deleteDoc                                                          *)
(* ===================================================================== *)

(** [firestore.doc(path).delete()]: the record at the path goes, if there
    is one; a path without a record is no failure. *)
Definition doc_delete (path : string) : M unit :=
  _ <- (λ fs, (firestore_doc path (docs fs), fs)) ;;
  _ <- engine_call ;;
  λ fs, (Ok tt, mkFirestore (remove_docs [path] (docs fs)) (faults fs)).

(** A transaction in progress: the handle and the deletes it has buffered,
    which reach the table only when the transaction commits. *)
Record TransactionWrites := mkTxnWrites {
  tw_txn : Transaction;
  tw_deletes : list string
}.

(** [t.delete(ref)]: buffered in the transaction, without an engine call. *)
Definition txn_delete (t : TransactionWrites) (path : string)
  : TransactionWrites :=
  mkTxnWrites (tw_txn t) (tw_deletes t ++ [path]).

(** [await (t ? t.delete(ref) : ref.delete())] *)
Definition deleteDoc (refStr : string) (t : option TransactionWrites)
  : M (option TransactionWrites) :=
  match t with
  | Some t =>
      _ <- lift (firestore_doc refStr (txn_docs (tw_txn t))) ;;
      ret (Some (txn_delete t refStr))
  | None => _ <- doc_delete refStr ;; ret None
  end.

(** A computation whose final engine state is always related by [R] to the
    state it started from. *)
Definition steps_in (R : Firestore → Firestore → Prop) {A} (m : M A) : Prop :=
  ∀ fs, R fs (m fs).2.

(** The table is the same. *)
Definition same_table (fs fs' : Firestore) : Prop := docs fs' = docs fs.

(** An engine with nothing planned is left exactly as it was. *)
Definition quiet_same (fs fs' : Firestore) : Prop := faults fs = [] → fs' = fs.

(** The planned outcomes of the first [n] calls have been consumed. *)
Definition consumed (n : nat) (fs fs' : Firestore) : Prop :=
  faults fs' = drop n (faults fs).

(** A table of two collections. *)
Definition two_collections : list Doc :=
  [ mkDoc "items" "a" ∅; mkDoc "users" "u" ∅; mkDoc "items" "b" ∅ ].

(* ===================================================================== *)
(** ** Properties: objects and identity metadata                          *)
(* ===================================================================== *)

Lemma filter_key_absent {V} (l : list (string * V)) k :
  k ∉ l.*1 → filter (λ kv, kv.1 = k) l = [].
Proof.
  induction l as [|[k' v'] l IH]; intros Hk; [done|].
  apply not_elem_of_cons in Hk as [Hne Hk].
  rewrite filter_cons_False; [by apply IH|]. simpl. by intros ->.
Qed.

Lemma filter_key_unique {V} (l : list (string * V)) k v :
  NoDup l.*1 → (k, v) ∈ l → filter (λ kv, kv.1 = k) l = [(k, v)].
Proof.
  induction l as [|[k' v'] l IH]; intros Hnd Hin.
  - by apply elem_of_nil in Hin.
  - apply NoDup_cons in Hnd as [Hk' Hnd].
    apply elem_of_cons in Hin as [Heq | Hin].
    + inversion Heq; subst k' v'.
      rewrite filter_cons_True by done. f_equal.
      by apply filter_key_absent.
    + rewrite filter_cons_False; [by apply IH|].
      simpl. intros ->. apply Hk'.
      apply list_elem_of_fmap. by exists (k, v).
Qed.

Lemma field_listed_once (o : Obj) k v :
  o !! k = Some v → filter (λ kv, kv.1 = k) (map_to_list o) = [(k, v)].
Proof.
  intros Hk. apply filter_key_unique.
  - apply NoDup_fst_map_to_list.
  - by apply elem_of_map_to_list.
Qed.

Lemma to_QR_identity d : carries_identity d (to_QR d).
Proof.
  assert (Hid : to_QR d !! "id" = Some (VStr (doc_id d))).
  { unfold to_QR. rewrite lookup_insert_ne by done. apply lookup_insert_eq. }
  assert (Href : to_QR d !! "ref" = Some (VStr (doc_path d))).
  { unfold to_QR. apply lookup_insert_eq. }
  repeat split; auto using field_listed_once.
  intros k Hk1 Hk2. unfold to_QR. by rewrite !lookup_insert_ne.
Qed.

Lemma item_ref_to_QR d : item_ref (to_QR d) = Some (doc_path d).
Proof. unfold item_ref, to_QR. by rewrite lookup_insert_eq. Qed.

(** C7. [queryData] removes exactly the fields [id] and [ref]: they are gone,
    every other field reads as before, the set of field names is the old one
    minus those two, and a second application changes nothing. *)
Theorem queryData_removes_exactly_id_ref (x : Obj) :
  queryData x !! "id" = None ∧
  queryData x !! "ref" = None ∧
  (∀ k, k ≠ "id" → k ≠ "ref" → queryData x !! k = x !! k) ∧
  dom (queryData x) = dom x ∖ {["id"; "ref"]} ∧
  queryData (queryData x) = queryData x.
Proof.
  unfold queryData. repeat split.
  - rewrite lookup_delete_ne by done. apply lookup_delete_eq.
  - apply lookup_delete_eq.
  - intros k Hid Href. by rewrite !lookup_delete_ne.
  - rewrite !dom_delete_L. apply set_eq. intros k.
    rewrite !elem_of_difference, elem_of_union, !elem_of_singleton. tauto.
  - apply map_eq. intros k.
    destruct (decide (k = "ref")) as [->|Href];
      [by rewrite !lookup_delete_eq|].
    destruct (decide (k = "id")) as [->|Hid].
    + rewrite !(lookup_delete_ne _ "ref") by done.
      by rewrite !lookup_delete_eq.
    + by rewrite !lookup_delete_ne.
Qed.

(** On a payload without fields of those names, extended with the identity
    metadata, [queryData] gives the payload back. *)
Lemma queryData_to_QR d :
  doc_data d !! "id" = None → doc_data d !! "ref" = None →
  queryData (to_QR d) = doc_data d.
Proof.
  intros Hid Href. unfold queryData, to_QR.
  rewrite delete_insert_ne by done.
  rewrite delete_insert_eq, delete_insert_eq.
  rewrite (delete_id (doc_data d) "id") by done. by apply delete_id.
Qed.

(* ===================================================================== *)
(** ** Properties: the engine and the monad                               *)
(* ===================================================================== *)

Lemma bind_Ok {A B} (m : M A) (k : A → M B) fs b fs' :
  bind m k fs = (Ok b, fs') →
  ∃ a fs1, m fs = (Ok a, fs1) ∧ k a fs1 = (Ok b, fs').
Proof. unfold bind. destruct (m fs) as [[a|e] fs1]; [eauto | discriminate]. Qed.

Lemma bind_step {A B} (m : M A) (k : A → M B) fs a fs1 :
  m fs = (Ok a, fs1) → bind m k fs = k a fs1.
Proof. unfold bind. by intros ->. Qed.

Lemma bind_fail {A B} (m : M A) (k : A → M B) fs e fs1 :
  m fs = (Err e, fs1) → bind m k fs = (Err e, fs1).
Proof. unfold bind. by intros ->. Qed.

Ltac inv_bind H :=
  let a := fresh "a" in
  let fs1 := fresh "fs1" in
  let Hm := fresh "Hm" in
  apply bind_Ok in H as (a & fs1 & Hm & H).

Lemma engine_call_docs fs r fs' : engine_call fs = (r, fs') → docs fs' = docs fs.
Proof.
  unfold engine_call. destruct (faults fs) as [|[e|] rest]; by intros [= <- <-].
Qed.

Lemma engine_call_quiet fs : faults fs = [] → engine_call fs = (Ok tt, fs).
Proof. unfold engine_call. by intros ->. Qed.

Lemma find_doc_Some path l d :
  find_doc path l = Some d → d ∈ l ∧ doc_path d = path.
Proof.
  unfold find_doc. destruct (list_find _ l) as [[i d']|] eqn:Hf; [|done].
  simpl. intros [= <-]. apply list_find_Some in Hf as (Hi & Hp & _).
  split; [by eapply list_elem_of_lookup_2 | done].
Qed.

Lemma find_doc_None path l :
  (∀ d, d ∈ l → doc_path d ≠ path) → find_doc path l = None.
Proof.
  intros Hno. unfold find_doc.
  destruct (list_find _ l) as [[i d']|] eqn:Hf; [|done].
  apply list_find_Some in Hf as (Hi & Hp & _).
  exfalso. eapply Hno; [by eapply list_elem_of_lookup_2 | done].
Qed.

Lemma find_doc_elem d l :
  d ∈ l → ∃ d', find_doc (doc_path d) l = Some d' ∧ doc_path d' = doc_path d.
Proof.
  intros Hin. destruct (find_doc (doc_path d) l) as [d'|] eqn:Hf.
  - exists d'. split; [done|]. by apply find_doc_Some in Hf as [_ ?].
  - unfold find_doc in Hf.
    destruct (list_find _ l) as [[i d']|] eqn:Hl; [done|].
    apply list_find_None in Hl. rewrite Forall_forall in Hl.
    by destruct (Hl d Hin).
Qed.

Lemma NoDup_submseteq_l {A} (l k : list A) : NoDup k → l ⊆+ k → NoDup l.
Proof.
  intros Hk Hsub. apply submseteq_sublist_r in Hsub as (k' & Hperm & Hk').
  rewrite Hperm. by eapply sublist_NoDup.
Qed.

Lemma NoDup_path_inj (l : list Doc) d1 d2 :
  NoDup (map doc_path l) → d1 ∈ l → d2 ∈ l →
  doc_path d1 = doc_path d2 → d1 = d2.
Proof.
  induction l as [|x l IH]; intros Hnd H1 H2 Hp;
    [by apply elem_of_nil in H1|].
  simpl in Hnd. apply NoDup_cons in Hnd as [Hx Hnd].
  apply elem_of_cons in H1 as [->|H1]; apply elem_of_cons in H2 as [->|H2].
  - done.
  - exfalso. apply Hx. rewrite Hp. apply list_elem_of_fmap. by exists d2.
  - exfalso. apply Hx. rewrite <- Hp. apply list_elem_of_fmap. by exists d1.
  - by apply IH.
Qed.

Lemma find_doc_stored l d :
  NoDup (map doc_path l) → d ∈ l → find_doc (doc_path d) l = Some d.
Proof.
  intros Hnd Hd. destruct (find_doc_elem d l Hd) as (d' & Hfind & Hp).
  rewrite Hfind. f_equal. apply find_doc_Some in Hfind as [Hd' _].
  by apply (NoDup_path_inj l).
Qed.

Lemma doc_path_nonempty d : doc_path d ≠ "".
Proof. unfold doc_path. by destruct (doc_collection d). Qed.

Lemma truthy_doc_path d : truthy_str (Some (doc_path d)) = true.
Proof.
  unfold truthy_str. apply negb_true_iff, String.eqb_neq, doc_path_nonempty.
Qed.

Lemma start_after_sublist p l : start_after p l `sublist_of` l.
Proof.
  induction l as [|d l IH]; simpl; [done|].
  case_decide; by apply sublist_cons.
Qed.

(** Where the record at [p] sits in a result list decides what follows. *)
Lemma start_after_app p pre d suf :
  p ∉ map doc_path pre → doc_path d = p →
  start_after p (pre ++ d :: suf) = suf.
Proof.
  intros Hpre Hd. induction pre as [|x pre IH]; simpl.
  - by rewrite decide_True.
  - simpl in Hpre. apply not_elem_of_cons in Hpre as [Hx Hpre].
    rewrite decide_False by done. by apply IH.
Qed.

Lemma apply_constraints_spec q cs :
  _applyQueryConstraints q cs
  = mkQuery (q_collection q) (q_clauses q ++ map clause_of cs)
            (q_startAfter q) (q_limit q).
Proof.
  unfold _applyQueryConstraints. revert q.
  induction cs as [|c cs IH]; intros q; simpl.
  - rewrite app_nil_r. by destruct q.
  - rewrite IH. destruct c; simpl; by rewrite <- app_assoc.
Qed.

Section EngineFacts.
Context `{QueryEngine}.


Lemma run_query_sub q table r :
  run_query q table = Ok r → r ⊆+ in_collection (q_collection q) table.
Proof.
  unfold run_query.
  destruct (eval_clauses _ _) as [base|e] eqn:Hb; [|done].
  apply eval_clauses_sub in Hb. intros Hr.
  transitivity base; [|done]. apply sublist_submseteq.
  destruct (apply_startAfter _ _ base) as [rows|e] eqn:Hrows; [|done].
  assert (Hsa : rows `sublist_of` base).
  { unfold apply_startAfter in Hrows. destruct (q_startAfter q).
    - by eapply eval_startAfter_sub.
    - by injection Hrows as <-. }
  unfold apply_limit in Hr. destruct (q_limit q) as [n|].
  - destruct (n <? 0); [done|]. injection Hr as <-.
    etransitivity; [apply sublist_take | done].
  - by injection Hr as <-.
Qed.

Lemma run_query_elem q table r d :
  run_query q table = Ok r → d ∈ r →
  d ∈ table ∧ doc_collection d = q_collection q.
Proof.
  intros Hr Hd. apply run_query_sub in Hr.
  eapply elem_of_submseteq in Hr; [|done].
  unfold in_collection in Hr. by apply list_elem_of_filter in Hr as [? ?].
Qed.

Lemma query_get_inv q fs r fs' :
  query_get q fs = (Ok r, fs') →
  engine_call fs = (Ok tt, fs') ∧ docs fs' = docs fs ∧
  run_query q (docs fs) = Ok r.
Proof.
  unfold query_get. intros Hq. inv_bind Hq. destruct a.
  injection Hq as Hr <-. pose proof (engine_call_docs _ _ _ Hm) as Hd.
  rewrite Hd in Hr. done.
Qed.

Lemma query_get_quiet q fs :
  faults fs = [] → query_get q fs = (run_query q (docs fs), fs).
Proof.
  intros Hf. unfold query_get.
  by rewrite (bind_step _ _ _ _ _ (engine_call_quiet _ Hf)).
Qed.

Lemma query_get_quiet_Ok q fs r :
  faults fs = [] → run_query q (docs fs) = Ok r → query_get q fs = (Ok r, fs).
Proof. intros Hf Hr. by rewrite query_get_quiet, Hr. Qed.

End EngineFacts.

Lemma doc_get_inv path fs s fs' :
  doc_get path fs = (Ok s, fs') →
  firestore_doc path (docs fs) = Ok tt ∧
  engine_call fs = (Ok tt, fs') ∧ s = mkSnap path (find_doc path (docs fs)).
Proof.
  unfold doc_get. intros Hq. inv_bind Hq. destruct a.
  injection Hm as Hdoc <-. inv_bind Hq. destruct a.
  injection Hq as <- <-. by rewrite (engine_call_docs _ _ _ Hm).
Qed.

Lemma doc_get_ok path fs fs' :
  firestore_doc path (docs fs) = Ok tt → engine_call fs = (Ok tt, fs') →
  doc_get path fs = (Ok (mkSnap path (find_doc path (docs fs))), fs').
Proof.
  intros Hdoc Hcall. unfold doc_get, bind. rewrite Hdoc, Hcall.
  by rewrite (engine_call_docs _ _ _ Hcall).
Qed.

Lemma doc_get_quiet path fs :
  faults fs = [] → firestore_doc path (docs fs) = Ok tt →
  doc_get path fs = (Ok (mkSnap path (find_doc path (docs fs))), fs).
Proof. intros Hf Hdoc. by apply doc_get_ok, engine_call_quiet. Qed.

Lemma txn_get_inv t path fs s fs' :
  txn_get t path fs = (Ok s, fs') →
  firestore_doc path (txn_docs t) = Ok tt ∧
  engine_call fs = (Ok tt, fs') ∧ s = mkSnap path (find_doc path (txn_docs t)).
Proof.
  unfold txn_get. intros Hq. inv_bind Hq. destruct a.
  injection Hm as Hdoc <-. inv_bind Hq. destruct a.
  by injection Hq as <- <-.
Qed.

Lemma txn_get_ok t path fs fs' :
  firestore_doc path (txn_docs t) = Ok tt → engine_call fs = (Ok tt, fs') →
  txn_get t path fs = (Ok (mkSnap path (find_doc path (txn_docs t))), fs').
Proof.
  intros Hdoc Hcall. unfold txn_get, bind, lift. by rewrite Hdoc, Hcall.
Qed.

(** The path of a stored record passes the check of [firestore.doc]. *)
Lemma firestore_doc_stored path table d :
  find_doc path table = Some d → firestore_doc path table = Ok tt.
Proof.
  intros Hfind. unfold firestore_doc. rewrite Hfind.
  by rewrite orb_true_r.
Qed.

Lemma firestore_doc_document_path path table :
  is_document_path path = true → firestore_doc path table = Ok tt.
Proof. intros Hp. unfold firestore_doc. by rewrite Hp. Qed.

(** What [_applyCursor] answers, when it answers: the clauses and the
    collection of the query it was given, a limit exactly when the interval
    is truthy, a start position exactly when [startAfter] is truthy. *)
Lemma applyCursor_inv q c fs q' fs' :
  _applyCursor q c fs = (Ok q', fs') →
  q_collection q' = q_collection q ∧ q_clauses q' = q_clauses q ∧
  q_limit q' = (if truthy_num (interval c) then Some (interval c)
                else q_limit q) ∧
  docs fs' = docs fs ∧
  (if truthy_str (startAfter c)
   then let s := mkSnap (default "" (startAfter c))
                        (find_doc (default "" (startAfter c)) (docs fs)) in
        q_startAfter q' = Some s ∧ in_query_collection q s = true ∧
        firestore_doc (default "" (startAfter c)) (docs fs) = Ok tt ∧
        engine_call fs = (Ok tt, fs')
   else q_startAfter q' = q_startAfter q ∧ fs' = fs).
Proof.
  unfold _applyCursor. intros Hc. inv_bind Hc.
  injection Hc as <- <-.
  destruct (truthy_str (startAfter c)).
  - inv_bind Hm. apply doc_get_inv in Hm0 as (Hdoc & Hcall & ->).
    unfold lift, Query_startAfter in Hm.
    destruct (in_query_collection q _) eqn:Hin; [|done].
    injection Hm as <- <-.
    pose proof (engine_call_docs _ _ _ Hcall).
    destruct (truthy_num (interval c)); simpl; eauto 10.
  - injection Hm as <- <-.
    destruct (truthy_num (interval c)); simpl; eauto 10.
Qed.

(* ===================================================================== *)
(** ** Properties: single documents and result items                      *)
(* ===================================================================== *)

Section UtilFacts.
Context `{QueryEngine}.

Lemma collectionQuery_inv refStr cs cursor fs data fs' :
  collectionQuery refStr cs cursor fs = (Ok data, fs') →
  ∃ q fs1 snaps,
    match cursor with
    | Some c => _applyCursor (_applyQueryConstraints (collection refStr) cs)
                             c fs = (Ok q, fs1)
    | None => q = _applyQueryConstraints (collection refStr) cs ∧ fs1 = fs
    end ∧
    query_get q fs1 = (Ok snaps, fs') ∧ data = map to_QR snaps.
Proof.
  unfold collectionQuery. intros Hc. inv_bind Hc. inv_bind Hc.
  injection Hc as <- <-. exists a, fs1, a0. split; [|done].
  destruct cursor; [done|]. by injection Hm as <- <-.
Qed.

Lemma collectionQuery_docs refStr cs cursor fs data fs' :
  collectionQuery refStr cs cursor fs = (Ok data, fs') →
  ∃ snaps, data = map to_QR snaps ∧
    ∀ d, d ∈ snaps → d ∈ docs fs ∧ doc_collection d = refStr.
Proof.
  intros Hc. apply collectionQuery_inv in Hc as (q & fs1 & snaps & Hq & Hg & ->).
  exists snaps. split; [done|]. intros d Hd.
  apply query_get_inv in Hg as (_ & _ & Hrun).
  destruct (run_query_elem _ _ _ _ Hrun Hd) as [Hin Hcoll].
  assert (q_collection q = refStr ∧ docs fs1 = docs fs) as [Hqc Hdocs].
  { destruct cursor as [c|].
    - apply applyCursor_inv in Hq as (Hcol & _ & _ & Hdocs & _).
      rewrite Hcol, apply_constraints_spec. done.
    - destruct Hq as [-> ->]. by rewrite apply_constraints_spec. }
  by rewrite <- Hdocs, <- Hqc.
Qed.

Lemma cursorQuery_inv refStr cs _cursor fs data c' fs' :
  cursorQuery refStr cs _cursor fs = (Ok (data, c'), fs') →
  collectionQuery refStr cs (Some (default default_cursor _cursor)) fs
    = (Ok data, fs') ∧
  c' = update_cursor (default default_cursor _cursor) data.
Proof.
  unfold cursorQuery. intros Hc. inv_bind Hc. by injection Hc as <- <- <-.
Qed.

(** C6. Every item answered by [docQuery], [collectionQuery] or
    [cursorQuery] carries the identity of a stored record: its [id] is the
    snapshot's id, its [ref] the snapshot's path, each listed once, whatever
    the payload holds under those names; the other fields are the payload's. *)
Theorem items_carry_snapshot_identity refStr t cs cursor fs :
  (∀ item fs', docQuery refStr t fs = (Ok (Some item), fs') →
     ∃ d, d ∈ match t with Some t => txn_docs t | None => docs fs end ∧
          doc_path d = refStr ∧ carries_identity d item) ∧
  (∀ data fs', collectionQuery refStr cs cursor fs = (Ok data, fs') →
     Forall (λ item, ∃ d, d ∈ docs fs ∧ doc_collection d = refStr ∧
                          carries_identity d item) data) ∧
  (∀ data c' fs', cursorQuery refStr cs cursor fs = (Ok (data, c'), fs') →
     Forall (λ item, ∃ d, d ∈ docs fs ∧ doc_collection d = refStr ∧
                          carries_identity d item) data).
Proof.
  assert (Hcoll : ∀ cur data fs',
    collectionQuery refStr cs cur fs = (Ok data, fs') →
    Forall (λ item, ∃ d, d ∈ docs fs ∧ doc_collection d = refStr ∧
                         carries_identity d item) data).
  { intros cur data fs' Hc.
    apply collectionQuery_docs in Hc as (snaps & -> & Hsn).
    apply Forall_forall. intros item Hitem.
    apply list_elem_of_fmap in Hitem as (d & -> & Hd).
    destruct (Hsn d Hd). exists d. auto using to_QR_identity. }
  split; [|split].
  - intros item fs' Hd. unfold docQuery in Hd. inv_bind Hd.
    injection Hd as Hitem <-.
    assert (snap_doc a = find_doc refStr
              match t with Some t => txn_docs t | None => docs fs end) as Hs.
    { destruct t as [t|].
      - by apply txn_get_inv in Hm as (_ & _ & ->).
      - by apply doc_get_inv in Hm as (_ & _ & ->). }
    destruct (snap_doc a) as [d|]; [|done]. injection Hitem as <-.
    symmetry in Hs. apply find_doc_Some in Hs as [Hin Hp].
    exists d. auto using to_QR_identity.
  - apply Hcoll.
  - intros data c' fs' Hc. apply cursorQuery_inv in Hc as [Hc _].
    by eapply Hcoll.
Qed.

(** C8, as the code has it. A document path at which the table consulted
    (the transaction's view when a handle is given, the engine's table
    otherwise) holds no document makes [docQuery] answer [null], with a
    transaction handle and without one, as long as the fetch itself goes
    through. *)
Theorem docQuery_missing_is_null refStr t fs fs' :
  is_document_path refStr = true →
  (∀ d, d ∈ match t with Some t => txn_docs t | None => docs fs end →
        doc_path d ≠ refStr) →
  engine_call fs = (Ok tt, fs') →
  docQuery refStr t fs = (Ok None, fs').
Proof.
  intros Hpath Hmiss Hcall. unfold docQuery.
  destruct t as [t|].
  - rewrite (bind_step _ _ _ _ _
              (txn_get_ok t refStr fs fs'
                 (firestore_doc_document_path _ _ Hpath) Hcall)).
    unfold ret. simpl. by rewrite find_doc_None.
  - rewrite (bind_step _ _ _ _ _
              (doc_get_ok refStr fs fs'
                 (firestore_doc_document_path _ _ Hpath) Hcall)).
    unfold ret. simpl. by rewrite find_doc_None.
Qed.

(** C8, counterexample. The strings [items] and the empty string name no
    stored document, and they are no document paths: [firestore.doc]
    refuses them and [docQuery] fails instead of answering [null], with a
    transaction handle and without one. *)
Lemma docQuery_fails_on_non_document_path :
  (∀ d, d ∈ sample_docs → doc_path d ≠ "items" ∧ doc_path d ≠ "") ∧
  docQuery "items" None sample_store
    = (Err EInvalidArgument, sample_store) ∧
  docQuery "items" (Some (mkTxn sample_docs)) sample_store
    = (Err EInvalidArgument, sample_store) ∧
  docQuery "" None sample_store = (Err EInvalidArgument, sample_store) ∧
  docQuery "" (Some (mkTxn sample_docs)) sample_store
    = (Err EInvalidArgument, sample_store).
Proof.
  split; [|repeat split; reflexivity].
  apply (Forall_forall (λ d, doc_path d ≠ "items" ∧ doc_path d ≠ "")).
  apply (bool_decide_unpack _). vm_compute. exact I.
Qed.

(** C10. The cursor answered by [cursorQuery] has the interval of the cursor
    it was given, and so has the cursor reached after any number of calls
    that each pass the previous answer back. *)
Theorem cursorQuery_preserves_interval refStr cs c :
  (∀ fs data c' fs',
     cursorQuery refStr cs (Some c) fs = (Ok (data, c'), fs') →
     interval c' = interval c) ∧
  (∀ n fs c' fs',
     advance n refStr cs c fs = (Ok c', fs') → interval c' = interval c).
Proof.
  assert (Hone : ∀ c0 fs data c' fs',
    cursorQuery refStr cs (Some c0) fs = (Ok (data, c'), fs') →
    interval c' = interval c0).
  { intros c0 fs data c' fs' Hc. by apply cursorQuery_inv in Hc as [_ ->]. }
  split; [apply Hone|].
  intros n. revert c. induction n as [|n IH]; intros c fs c' fs' Ha; simpl in Ha.
  - by injection Ha as <- <-.
  - inv_bind Ha. destruct a as [data c1]. simpl in Ha.
    apply IH in Ha. apply Hone in Hm. congruence.
Qed.

End UtilFacts.

(* ===================================================================== *)
(** ** Properties: the cursor                                             *)
(* ===================================================================== *)

Lemma update_cursor_empty c :
  update_cursor c [] = mkCursor (interval c) (0 =? interval c) (startAfter c).
Proof. done. Qed.

Lemma update_cursor_snoc c data d :
  update_cursor c (map to_QR (data ++ [d]))
  = mkCursor (interval c)
             (Z.of_nat (length (data ++ [d])) =? interval c)
             (Some (doc_path d)).
Proof.
  unfold update_cursor. rewrite length_map, length_app. simpl.
  replace (length data + 1 =? 0)%nat with false
    by (symmetry; apply Nat.eqb_neq; lia).
  f_equal. rewrite list_lookup_fmap.
  replace (length data + 1 - 1)%nat with (length data + 0)%nat by lia.
  rewrite lookup_app_r by lia.
  replace (length data + 0 - length data)%nat with 0%nat by lia.
  simpl. apply item_ref_to_QR.
Qed.

Section CursorFacts.
Context `{QueryEngine}.

(** C2, as the code has it. The cursor answered by [cursorQuery] has
    [hasNext] true exactly when the page is as long as the interval of the
    previous cursor.  After an empty page [startAfter] is the previous one,
    and [hasNext] is false exactly when the interval is not 0; after a
    non-empty page [startAfter] is the [ref] of the last item. *)
Theorem cursorQuery_advances_cursor refStr cs _cursor fs data c' fs' :
  cursorQuery refStr cs _cursor fs = (Ok (data, c'), fs') →
  let c := default default_cursor _cursor in
  (hasNext c' = true ↔ Z.of_nat (length data) = interval c) ∧
  (data = [] →
     startAfter c' = startAfter c ∧
     (hasNext c' = false ↔ interval c ≠ 0)) ∧
  (data ≠ [] →
     ∃ item r, last data = Some item ∧ item !! "ref" = Some (VStr r) ∧
               startAfter c' = Some r).
Proof.
  intros Hc c. apply cursorQuery_inv in Hc as [Hcoll ->]. fold c.
  split; [|split].
  - unfold update_cursor. simpl. apply Z.eqb_eq.
  - intros ->. rewrite update_cursor_empty. simpl. split; [done|].
    destruct (interval c); split; (done || lia).
  - intros Hne. apply collectionQuery_docs in Hcoll as (snaps & -> & _).
    destruct snaps as [|d snaps _] using rev_ind; [done|].
    rewrite update_cursor_snoc, map_app. simpl. rewrite last_snoc.
    exists (to_QR d), (doc_path d). split; [done|]. split; [|done].
    apply to_QR_identity.
Qed.


End CursorFacts.

(** C2, counterexample. With interval 0 and an empty collection the page is
    empty and the answered cursor still says [hasNext = true]. *)
Lemma empty_page_hasNext_true_at_interval_0 :
  ∃ c', cursorQuery "items" [] (Some (mkCursor 0 true None))
                    (mkFirestore [] [])
        = (Ok ([], c'), mkFirestore [] []) ∧
        hasNext c' = true.
Proof. eexists. split; reflexivity. Qed.


(* ===================================================================== *)
(** ** Properties: lists of records with distinct paths                   *)
(* ===================================================================== *)

Lemma in_collection_paths_NoDup c l :
  NoDup (map doc_path l) → NoDup (map doc_path (in_collection c l)).
Proof.
  intros Hnd. eapply sublist_NoDup; [done|].
  apply fmap_sublist, sublist_filter.
Qed.

Lemma remove_docs_paths_NoDup refs l :
  NoDup (map doc_path l) → NoDup (map doc_path (remove_docs refs l)).
Proof.
  intros Hnd. eapply sublist_NoDup; [done|].
  apply fmap_sublist, sublist_filter.
Qed.

Lemma filter_ext_elem {A} (P Q : A → Prop)
    `{∀ x, Decision (P x)} `{∀ x, Decision (Q x)} (l : list A) :
  (∀ x, x ∈ l → P x ↔ Q x) → filter P l = filter Q l.
Proof.
  induction l as [|a l IH]; intros Hext; [done|].
  assert (HPQ : P a ↔ Q a) by (apply Hext; left).
  assert (Htl : filter P l = filter Q l)
    by (apply IH; intros x Hx; apply Hext; by right).
  destruct (decide (P a)) as [HP|HP].
  - rewrite !filter_cons_True by tauto. by f_equal.
  - rewrite !filter_cons_False by tauto. done.
Qed.

(** Removing the paths of the first [n] records of a list with distinct
    paths leaves the records after them. *)
Lemma remove_docs_take n l :
  NoDup (map doc_path l) →
  remove_docs (map doc_path (take n l)) l = drop n l.
Proof.
  unfold remove_docs. revert l.
  induction n as [|n IH]; intros l Hnd.
  - simpl. clear Hnd. induction l as [|d l IHl]; [done|].
    rewrite filter_cons_True by apply not_elem_of_nil.
    simpl in *. by f_equal.
  - destruct l as [|d l]; [done|]. simpl in *.
    apply NoDup_cons in Hnd as [Hd Hnd].
    rewrite filter_cons_False by (intros Hn; apply Hn; left).
    rewrite <- (IH l Hnd). apply filter_ext_elem. intros x Hx.
    rewrite not_elem_of_cons. split; [tauto|]. intros Hx'. split; [|done].
    intros Heq. apply Hd. rewrite <- Heq.
    apply list_elem_of_fmap. by exists x.
Qed.

Lemma in_collection_remove c n l :
  NoDup (map doc_path l) →
  in_collection c
    (remove_docs (map doc_path (take n (in_collection c l))) l)
  = drop n (in_collection c l).
Proof.
  intros Hnd.
  rewrite <- (remove_docs_take n (in_collection c l))
    by by apply in_collection_paths_NoDup.
  unfold in_collection, remove_docs. rewrite !list_filter_filter.
  apply list_filter_iff. tauto.
Qed.

Lemma remove_docs_shrinks refs l d :
  d ∈ l → doc_path d ∈ refs →
  (length (remove_docs refs l) < length l)%nat.
Proof.
  intros Hin Href. unfold remove_docs.
  induction l as [|x l IH]; [by apply elem_of_nil in Hin|].
  apply elem_of_cons in Hin as [<- | Hin].
  - rewrite filter_cons_False by tauto. simpl.
    pose proof (length_filter (λ d0, doc_path d0 ∉ refs) l). lia.
  - specialize (IH Hin). destruct (decide (doc_path x ∉ refs)).
    + rewrite filter_cons_True by done. simpl. lia.
    + rewrite filter_cons_False by done. simpl. lia.
Qed.

Lemma ceil_div_0 b : 0 < b → ceil_div 0 b = 0.
Proof. intros Hb. unfold ceil_div. apply Z.div_small. lia. Qed.

Lemma ceil_div_step (n : nat) b :
  0 < b → (0 < n)%nat →
  ceil_div n b = ceil_div (n - Z.to_nat b) b + 1.
Proof.
  intros Hb Hn. unfold ceil_div.
  destruct (decide (Z.to_nat b ≤ n)%nat) as [Hle|Hgt].
  - replace (Z.of_nat (n - Z.to_nat b)) with (Z.of_nat n - b) by lia.
    replace (Z.of_nat n + b - 1) with (Z.of_nat n - b + b - 1 + 1 * b) by lia.
    rewrite Z.div_add by lia. done.
  - replace (Z.of_nat (n - Z.to_nat b)) with 0 by lia.
    rewrite (Z.div_small (0 + b - 1)) by lia.
    symmetry. apply Z.div_unique with (r := Z.of_nat n - 1); lia.
Qed.

(* ===================================================================== *)
(** ** Properties: deleteCollection                                       *)
(* ===================================================================== *)

Section DeleteFacts.
Context `{QueryEngine}.

Lemma run_delete_query refStr b table :
  0 ≤ b →
  run_query (delete_query refStr b) table
  = Ok (take (Z.to_nat b) (in_collection refStr table)).
Proof.
  intros Hb. unfold run_query, delete_query. simpl.
  rewrite eval_clauses_name. simpl.
  by rewrite (proj2 (Z.ltb_ge b 0) Hb).
Qed.

Lemma delete_round_progress q fs refs fs' :
  delete_round q fs = (Ok (refs, false), fs') →
  (length (docs fs') < length (docs fs))%nat.
Proof.
  unfold delete_round. intros Hr. inv_bind Hr.
  apply query_get_inv in Hm as (_ & Hdocs & Hrun).
  destruct a as [|d snaps]; [by injection Hr|]. simpl in Hr.
  inv_bind Hr. injection Hr as <- <-.
  unfold batch_commit in Hm. inv_bind Hm.
  apply engine_call_docs in Hm0.
  destruct (max_batch <? _)%nat; [done|]. injection Hm as _ <-. simpl.
  rewrite Hm0, Hdocs. apply remove_docs_shrinks with d; [|by left].
  eapply run_query_elem; [done | by left].
Qed.

Lemma deleteQueryBatch_total fuel caught q fs :
  (length (docs fs) < fuel)%nat →
  is_Some (_deleteQueryBatch fuel caught q fs).
Proof.
  revert caught fs. induction fuel as [|fuel IH]; intros caught fs Hlen;
    [lia|].
  simpl. destruct (delete_round q fs) as [[[refs [|]]|e] fs'] eqn:Hr.
  - done.
  - apply delete_round_progress in Hr.
    destruct (IH false fs') as [r ->]; [lia | done].
  - by destruct caught.
Qed.

(** [deleteCollection] always comes to an end, whatever the engine does. *)
Lemma deleteCollection_total refStr b fs :
  is_Some (deleteCollection refStr b fs).
Proof. apply deleteQueryBatch_total. lia. Qed.

(** The sibling path: a failure in the first round rejects the promise
    with the very error the engine raised. *)
Lemma deleteCollection_first_round_failure refStr b fs e fs' :
  delete_round (delete_query refStr b) fs = (Err e, fs') →
  deleteCollection refStr b fs = Some (mkRun (Rejected e) 1 [] [] None fs').
Proof.
  intros Hr. unfold deleteCollection. simpl.
  fold (delete_query refStr b). by rewrite Hr.
Qed.

(** The rounds started from [process.nextTick] never reject the promise,
    whatever fails in them. *)
Lemma later_rounds_never_reject fuel q fs run e :
  _deleteQueryBatch fuel false q fs = Some run →
  run_promise run ≠ Rejected e.
Proof.
  revert fs run. induction fuel as [|fuel IH]; intros fs run; simpl; [done|].
  destruct (delete_round q fs) as [[[refs [|]]|e'] fs'].
  - by intros [= <-].
  - destruct (_deleteQueryBatch fuel false q fs') as [r|] eqn:Hr; [|done].
    intros [= <-]. simpl. by eapply IH.
  - by intros [= <-].
Qed.

(** So a run is rejected only by a failure of its first round. *)
Lemma rejected_only_in_first_round refStr b fs run e :
  deleteCollection refStr b fs = Some run →
  run_promise run = Rejected e →
  ∃ fs', delete_round (delete_query refStr b) fs = (Err e, fs').
Proof.
  unfold deleteCollection. simpl. fold (delete_query refStr b).
  destruct (delete_round (delete_query refStr b) fs)
    as [[[refs [|]]|e'] fs'].
  - by intros [= <-].
  - destruct (_deleteQueryBatch _ false _ fs') as [r|] eqn:Hr; [|done].
    intros [= <-]. simpl. intros Hrej.
    by apply later_rounds_never_reject with (e := e) in Hr.
  - intros [= <-]. simpl. intros [= ->]. eauto.
Qed.

Lemma delete_round_empty refStr b fs :
  faults fs = [] → 0 ≤ b → in_collection refStr (docs fs) = [] →
  delete_round (delete_query refStr b) fs = (Ok ([], true), fs).
Proof.
  intros Hf Hb Hcoll. unfold delete_round.
  pose proof (query_get_quiet (delete_query refStr b) fs Hf) as Hq.
  rewrite run_delete_query, Hcoll, take_nil in Hq by done.
  by rewrite (bind_step _ _ _ _ _ Hq).
Qed.

Lemma batch_commit_quiet refs fs :
  faults fs = [] → (length refs ≤ max_batch)%nat →
  batch_commit refs fs
  = (Ok tt, mkFirestore (remove_docs refs (docs fs)) []).
Proof.
  intros Hf Hlen. unfold batch_commit.
  rewrite (bind_step _ _ _ _ _ (engine_call_quiet _ Hf)).
  replace (max_batch <? length refs)%nat with false
    by (symmetry; apply Nat.ltb_ge; lia).
  by rewrite Hf.
Qed.

Lemma delete_round_batch refStr b fs :
  faults fs = [] → 0 < b ≤ Z.of_nat max_batch →
  in_collection refStr (docs fs) ≠ [] →
  let page := take (Z.to_nat b) (in_collection refStr (docs fs)) in
  delete_round (delete_query refStr b) fs
  = (Ok (map doc_path page, false),
     mkFirestore (remove_docs (map doc_path page) (docs fs)) []).
Proof.
  intros Hf Hb Hcoll page. unfold delete_round.
  pose proof (query_get_quiet (delete_query refStr b) fs Hf) as Hq.
  rewrite run_delete_query in Hq by lia. fold page in Hq.
  rewrite (bind_step _ _ _ _ _ Hq).
  assert (Hlen : (0 < length page ≤ max_batch)%nat).
  { unfold page. rewrite length_take.
    destruct (in_collection refStr (docs fs)); [done|]. simpl. lia. }
  replace (length page =? 0)%nat with false
    by (symmetry; apply Nat.eqb_neq; lia).
  cbv iota.
  rewrite (bind_step _ _ _ _ _
            (batch_commit_quiet (map doc_path page) fs Hf
               ltac:(rewrite length_map; lia))).
  done.
Qed.

(** The rounds of a run over a quiet engine, by induction on the fuel. *)
Lemma deleteQueryBatch_spec fuel caught refStr b fs :
  NoDup (map doc_path (docs fs)) → faults fs = [] →
  0 < b ≤ Z.of_nat max_batch →
  (length (in_collection refStr (docs fs)) < fuel)%nat →
  ∃ run,
    _deleteQueryBatch fuel caught (delete_query refStr b) fs = Some run ∧
    run_promise run = Resolved true ∧
    run_unhandled run = None ∧
    Z.of_nat (run_rounds run)
      = ceil_div (length (in_collection refStr (docs fs))) b + 1 ∧
    length (run_snapshots run) = run_rounds run ∧
    last (run_snapshots run) = Some [] ∧
    concat (run_snapshots run)
      = map doc_path (in_collection refStr (docs fs)) ∧
    run_deleted run = map doc_path (in_collection refStr (docs fs)) ∧
    in_collection refStr (docs (run_store run)) = [].
Proof.
  intros Hnd Hf Hb. revert caught fs Hnd Hf.
  induction fuel as [|fuel IH]; intros caught fs Hnd Hf Hlen; [lia|].
  simpl. destruct (in_collection refStr (docs fs)) as [|d coll] eqn:Hcoll.
  - rewrite delete_round_empty by (done || lia).
    eexists. split; [done|]. simpl. rewrite ceil_div_0 by lia.
    by rewrite Hcoll.
  - rewrite delete_round_batch by (done || by rewrite Hcoll).
    rewrite Hcoll.
    set (page := take (Z.to_nat b) (d :: coll)).
    set (fs' := mkFirestore (remove_docs (map doc_path page) (docs fs)) []).
    assert (Hcoll' : in_collection refStr (docs fs')
                     = drop (Z.to_nat b) (d :: coll)).
    { unfold fs', page. simpl. rewrite <- Hcoll.
      by apply in_collection_remove. }
    destruct (IH false fs') as (r & -> & Hp & Hu & Hrounds & Hsl & Hlast
                                  & Hcat & Hdel & Hfinal).
    { simpl. by apply remove_docs_paths_NoDup. }
    { done. }
    { rewrite Hcoll', length_drop. simpl in *. lia. }
    eexists. split; [done|]. simpl.
    rewrite Hcoll' in Hrounds, Hcat, Hdel.
    repeat split; try done.
    + rewrite (ceil_div_step (S (length coll)) b) by lia.
      rewrite length_drop in Hrounds. simpl in Hrounds. lia.
    + by rewrite Hsl.
    + destruct (run_snapshots r) as [|s rest]; [done|]. done.
    + rewrite Hcat. unfold page. rewrite <- map_app. by rewrite take_drop.
    + rewrite Hdel. unfold page. rewrite <- map_app. by rewrite take_drop.
Qed.

(** C1, as the code has it. Over an engine that does not fail, with distinct
    document paths and a batch size from 1 to the largest batch the engine
    commits, [deleteCollection] on a collection of N records resolves to
    [true] after exactly ceil(N/b)+1 query rounds, the last of which answers
    no record; the batches committed are the N records, each once and in
    order, and the collection is empty afterwards. *)
Theorem deleteCollection_empties_collection refStr b fs :
  NoDup (map doc_path (docs fs)) → faults fs = [] →
  0 < b ≤ Z.of_nat max_batch →
  let coll := in_collection refStr (docs fs) in
  ∃ run,
    deleteCollection refStr b fs = Some run ∧
    run_promise run = Resolved true ∧
    Z.of_nat (run_rounds run) = ceil_div (length coll) b + 1 ∧
    length (run_snapshots run) = run_rounds run ∧
    last (run_snapshots run) = Some [] ∧
    run_deleted run = map doc_path coll ∧
    NoDup (run_deleted run) ∧
    in_collection refStr (docs (run_store run)) = [].
Proof.
  intros Hnd Hf Hb coll.
  destruct (deleteQueryBatch_spec (S (length (docs fs))) true refStr b fs)
    as (r & Hr & Hp & _ & Hrounds & Hsl & Hlast & _ & Hdel & Hfinal);
    try done.
  { unfold in_collection.
    pose proof (length_filter (λ d, doc_collection d = refStr) (docs fs)).
    lia. }
  exists r. repeat split; try done.
  rewrite Hdel. by apply in_collection_paths_NoDup.
Qed.

End DeleteFacts.

(** C1, counterexample. With batch size 0 the first round answers no
    record: the promise resolves to [true] after one round, nothing was
    deleted and the three records are still there.  With 501 records and
    batch size 501 the batch is above what the engine commits, and the
    promise is rejected. *)
Lemma deleteCollection_not_for_every_batch_size :
  (∃ run,
     deleteCollection "items" 0 sample_store = Some run ∧
     run_promise run = Resolved true ∧
     run_rounds run = 1%nat ∧
     run_deleted run = [] ∧
     length (in_collection "items" (docs sample_store)) = 3%nat ∧
     in_collection "items" (docs (run_store run)) = sample_docs) ∧
  run_promise <$> deleteCollection "items" 501 (mkFirestore (numbered 501) [])
  = Some (Rejected EInvalidArgument).
Proof.
  split.
  - eexists. repeat split; reflexivity.
  - vm_compute. reflexivity.
Qed.

(** C4, the defect. A failure in the second round is not handed to the
    caller: the promise stays pending for ever and the error is left as an
    unhandled rejection, while the first batch is already deleted. *)
Lemma deleteCollection_later_failure_never_settles :
  deleteCollection "items" 1 fails_in_round_2
  = Some (mkRun Pending 2 [["items/a"]] ["items/a"] (Some EUnavailable)
                (mkFirestore [mkDoc "items" "b" ∅] [])).
Proof. reflexivity. Qed.

(** The same failure met in the first round is handed to the caller. *)
Lemma deleteCollection_first_failure_rejects :
  deleteCollection "items" 1 (mkFirestore two_items [Some EUnavailable])
  = Some (mkRun (Rejected EUnavailable) 1 [] [] None
                (mkFirestore two_items [])).
Proof. reflexivity. Qed.

(* ===================================================================== *)
(** ** Properties: a pagination session                                   *)
(* ===================================================================== *)

Lemma update_cursor_page c page :
  update_cursor c (map to_QR page)
  = mkCursor (interval c) (Z.of_nat (length page) =? interval c)
             (from_option (λ d, Some (doc_path d)) (startAfter c) (last page)).
Proof.
  destruct page as [|d page _] using rev_ind.
  - apply update_cursor_empty.
  - by rewrite update_cursor_snoc, last_snoc.
Qed.

Lemma last_paths_app pre page sa :
  sa = last (map doc_path pre) →
  from_option (λ d, Some (doc_path d)) sa (last page)
  = last (map doc_path (pre ++ page)).
Proof.
  intros ->. destruct page as [|d page _] using rev_ind.
  - by rewrite app_nil_r.
  - rewrite last_snoc, app_assoc, map_app. simpl. by rewrite last_snoc.
Qed.

Lemma div_lt_small (n : nat) p :
  0 < p → Z.of_nat n < p → Z.of_nat n / p = 0.
Proof. intros. apply Z.div_small. lia. Qed.

Lemma div_ge_step (n : nat) p :
  0 < p → p ≤ Z.of_nat n →
  Z.of_nat n / p = Z.of_nat (n - Z.to_nat p) / p + 1.
Proof.
  intros Hp Hn.
  replace (Z.of_nat (n - Z.to_nat p)) with (Z.of_nat n - p) by lia.
  replace (Z.of_nat n) with (Z.of_nat n - p + 1 * p) at 1 by lia.
  by rewrite Z.div_add by lia.
Qed.

Section PaginateFacts.
Context `{QueryEngine}.
Variables (refStr : string) (cs : list QueryConstraint) (fs : Firestore).
Variable L : list Doc.
Hypothesis Hnd : NoDup (map doc_path (docs fs)).
Hypothesis Hf : faults fs = [].
Hypothesis HL :
  eval_clauses (map clause_of cs) (in_collection refStr (docs fs)) = Ok L.

Lemma selected_in_table d : d ∈ L → d ∈ docs fs.
Proof.
  intros Hd. apply eval_clauses_sub in HL.
  eapply elem_of_submseteq in HL; [|done].
  unfold in_collection in HL. by apply list_elem_of_filter in HL as [_ ?].
Qed.

Lemma selected_in_collection d : d ∈ L → doc_collection d = refStr.
Proof.
  intros Hd. apply eval_clauses_sub in HL.
  eapply elem_of_submseteq in HL; [|done].
  unfold in_collection in HL. by apply list_elem_of_filter in HL as [? _].
Qed.

Lemma selected_paths_NoDup : NoDup (map doc_path L).
Proof.
  apply NoDup_submseteq_l with (map doc_path (in_collection refStr (docs fs))).
  - by apply in_collection_paths_NoDup.
  - apply fmap_submseteq. by apply eval_clauses_sub in HL.
Qed.

(** One call of [cursorQuery] from a cursor that stands after [pre]: the
    page is the next [interval] records. *)
Lemma cursorQuery_page _cursor pre R :
  let c := default default_cursor _cursor in
  L = pre ++ R → startAfter c = last (map doc_path pre) → 0 < interval c →
  cursorQuery refStr cs _cursor fs
  = (Ok (map to_QR (take (Z.to_nat (interval c)) R),
         update_cursor c (map to_QR (take (Z.to_nat (interval c)) R))), fs).
Proof.
  intros c HLR Hsa Hp. unfold cursorQuery. fold c.
  assert (Hcoll : collectionQuery refStr cs (Some c) fs
                  = (Ok (map to_QR (take (Z.to_nat (interval c)) R)), fs)).
  { unfold collectionQuery. rewrite apply_constraints_spec. simpl.
    assert (Hnum : truthy_num (interval c) = true).
    { unfold truthy_num. apply negb_true_iff, Z.eqb_neq. lia. }
    assert (Hlim : (interval c <? 0) = false) by (apply Z.ltb_ge; lia).
    destruct pre as [|d pre _] using rev_ind.
    - simpl in Hsa, HLR. subst R.
      assert (Hc : _applyCursor (mkQuery refStr (map clause_of cs) None None)
                     c fs
                   = (Ok (mkQuery refStr (map clause_of cs) None
                                  (Some (interval c))), fs)).
      { unfold _applyCursor. rewrite Hsa. simpl. unfold bind, ret.
        by rewrite Hnum. }
      rewrite (bind_step _ _ _ _ _ Hc).
      assert (Hrun : run_query (mkQuery refStr (map clause_of cs) None
                                        (Some (interval c))) (docs fs)
                     = Ok (take (Z.to_nat (interval c)) L)).
      { unfold run_query. simpl. rewrite HL. simpl. by rewrite Hlim. }
      by rewrite (bind_step _ _ _ _ _ (query_get_quiet_Ok _ _ _ Hf Hrun)).
    - rewrite map_app in Hsa. simpl in Hsa. rewrite last_snoc in Hsa.
      assert (Hd : d ∈ L).
      { rewrite HLR. apply elem_of_app. left. apply elem_of_app. right.
        by left. }
      pose proof (find_doc_stored _ _ Hnd (selected_in_table d Hd)) as Hfind.
      set (s := mkSnap (doc_path d) (Some d)).
      assert (Hc : _applyCursor (mkQuery refStr (map clause_of cs) None None)
                     c fs
                   = (Ok (mkQuery refStr (map clause_of cs) (Some s)
                                  (Some (interval c))), fs)).
      { unfold _applyCursor. rewrite Hsa, truthy_doc_path. simpl.
        set (q0 := mkQuery refStr (map clause_of cs) None None).
        assert (Hpos : (doc <- doc_get (doc_path d) ;;
                        lift (Query_startAfter q0 doc)) fs
                       = (Ok (mkQuery refStr (map clause_of cs) (Some s)
                                      None), fs)).
        { rewrite (bind_step _ _ _ _ _
                    (doc_get_quiet _ _ Hf (firestore_doc_stored _ _ _ Hfind))).
          rewrite Hfind. unfold lift, Query_startAfter, in_query_collection.
          simpl. by rewrite (bool_decide_eq_true_2 _
                               (selected_in_collection d Hd)). }
        rewrite (bind_step _ _ _ _ _ Hpos). unfold ret. by rewrite Hnum. }
      rewrite (bind_step _ _ _ _ _ Hc).
      assert (Hrun : run_query (mkQuery refStr (map clause_of cs) (Some s)
                                        (Some (interval c))) (docs fs)
                     = Ok (take (Z.to_nat (interval c)) R)).
      { unfold run_query. simpl. rewrite HL. simpl. rewrite HLR.
        rewrite <- app_assoc. simpl. unfold s.
        rewrite eval_startAfter_at; [by simpl; rewrite Hlim|].
        pose proof selected_paths_NoDup as HndL.
        rewrite HLR, <- app_assoc, map_app in HndL. simpl in HndL.
        apply NoDup_app in HndL as (_ & Hdisj & _).
        intros Hin. apply (Hdisj _ Hin). by left. }
      by rewrite (bind_step _ _ _ _ _ (query_get_quiet_Ok _ _ _ Hf Hrun)). }
  by rewrite (bind_step _ _ _ _ _ Hcoll).
Qed.

(** The whole session from a cursor that stands after [pre]. *)
Lemma paginate_from fuel _cursor pre R :
  let c := default default_cursor _cursor in
  let p := interval c in
  L = pre ++ R → startAfter c = last (map doc_path pre) → 0 < p →
  Z.of_nat (length R) / p < Z.of_nat fuel →
  ∃ pages,
    paginate fuel refStr cs _cursor fs = Some (Ok pages, fs) ∧
    concat pages = map to_QR R ∧
    Z.of_nat (length pages) = Z.of_nat (length R) / p + 1 ∧
    (Z.of_nat (length R) mod p = 0 → last pages = Some []) ∧
    (Z.of_nat (length R) mod p ≠ 0 → ∀ page, last pages = Some page →
                                             page ≠ []).
Proof.
  revert _cursor pre R.
  induction fuel as [|fuel IH]; intros _cursor pre R c p HLR Hsa Hp Hfuel.
  { pose proof (Z.div_pos (Z.of_nat (length R)) p). lia. }
  simpl. rewrite (cursorQuery_page _cursor pre R HLR Hsa Hp). fold c p.
  rewrite update_cursor_page. simpl. fold p.
  rewrite length_take.
  destruct (decide (p ≤ Z.of_nat (length R))) as [Hfull|Hshort].
  - replace (Z.of_nat (Z.to_nat p `min` length R) =? p) with true
      by (symmetry; apply Z.eqb_eq; lia).
    set (page := take (Z.to_nat p) R).
    set (c' := mkCursor p true _).
    destruct (IH (Some c') (pre ++ page) (drop (Z.to_nat p) R))
      as (pages & -> & Hcat & Hlen & Hlast0 & Hlast1).
    { unfold page. by rewrite <- app_assoc, take_drop. }
    { simpl. by apply last_paths_app. }
    { done. }
    { simpl. rewrite length_drop.
      rewrite (div_ge_step (length R) p) in Hfuel by done. lia. }
    simpl in *. rewrite length_drop in Hlen, Hlast0, Hlast1.
    assert (Hmod : Z.of_nat (length R - Z.to_nat p) mod p
                   = Z.of_nat (length R) mod p).
    { replace (Z.of_nat (length R)) with
        (Z.of_nat (length R - Z.to_nat p) + 1 * p) by lia.
      by rewrite Z.mod_add by lia. }
    rewrite Hmod in Hlast0, Hlast1.
    exists (map to_QR page :: pages). split; [done|]. simpl.
    assert (Hpages : pages ≠ []) by (intros ->; simpl in Hlen;
      pose proof (Z.div_pos (Z.of_nat (length R - Z.to_nat p)) p); lia).
    repeat split.
    + rewrite Hcat. unfold page. rewrite <- map_app. by rewrite take_drop.
    + rewrite (div_ge_step (length R) p) by done. lia.
    + intros Hm. destruct pages; [done|]. by apply Hlast0.
    + intros Hm pg. destruct pages; [done|]. by apply Hlast1.
  - replace (Z.of_nat (Z.to_nat p `min` length R) =? p) with false
      by (symmetry; apply Z.eqb_neq; lia).
    rewrite take_ge by lia.
    exists [map to_QR R]. split; [done|]. simpl.
    rewrite app_nil_r, div_lt_small by lia.
    repeat split; try done.
    + rewrite Z.mod_small by lia. intros HR.
      destruct R; [done | simpl in HR; lia].
    + rewrite Z.mod_small by lia. intros HR pg [= <-].
      destruct R; [simpl in HR; lia | done].
Qed.

End PaginateFacts.

Lemma ceil_div_cases (n : nat) p :
  0 < p →
  (Z.of_nat n mod p = 0 → ceil_div n p = Z.of_nat n / p) ∧
  (Z.of_nat n mod p ≠ 0 → ceil_div n p = Z.of_nat n / p + 1).
Proof.
  intros Hp. unfold ceil_div.
  pose proof (Z.div_mod (Z.of_nat n) p ltac:(lia)) as Hdm.
  pose proof (Z.mod_pos_bound (Z.of_nat n) p Hp) as Hb.
  split; intros Hm; symmetry.
  - apply Z.div_unique with (r := p - 1); lia.
  - apply Z.div_unique with (r := Z.of_nat n mod p - 1); lia.
Qed.

Lemma to_QR_NoDup l : NoDup (map doc_path l) → NoDup (map to_QR l).
Proof.
  intros Hnd. apply (NoDup_fmap_1 (λ item, default "" (item_ref item))).
  rewrite <- list_fmap_compose.
  erewrite list_fmap_ext; [exact Hnd|].
  intros i d _. simpl. by rewrite item_ref_to_QR.
Qed.

(** C3. Over an engine that does not fail and a table with distinct paths,
    a session that starts from a cursor without position (no cursor at all,
    which means page size 10, or a cursor of page size p > 0 whose
    [startAfter] is unset) and goes on until [hasNext] is false answers the
    N records of the collection, in order, each once and none missing.  It
    takes ceil(N/p) calls, or ceil(N/p)+1 calls of which the last answers an
    empty page. *)
Theorem pagination_retrieves_every_record `{QueryEngine}
    refStr _cursor fs fuel :
  let c := default default_cursor _cursor in
  let coll := in_collection refStr (docs fs) in
  let p := interval c in
  NoDup (map doc_path (docs fs)) → faults fs = [] →
  0 < p → startAfter c = None →
  Z.of_nat (length coll) / p < Z.of_nat fuel →
  ∃ pages,
    paginate fuel refStr [] _cursor fs = Some (Ok pages, fs) ∧
    concat pages = map to_QR coll ∧
    NoDup (concat pages) ∧
    (Z.of_nat (length pages) = ceil_div (length coll) p ∨
     (Z.of_nat (length pages) = ceil_div (length coll) p + 1 ∧
      last pages = Some [])).
Proof.
  intros c coll p Hnd Hf Hp Hsa Hfuel.
  destruct (paginate_from refStr [] fs coll Hnd Hf (eval_clauses_nil _)
              fuel _cursor [] coll)
    as (pages & Hpag & Hcat & Hlen & Hlast & _); try done.
  exists pages. split; [done|]. split; [done|]. split.
  - rewrite Hcat. by apply to_QR_NoDup, in_collection_paths_NoDup.
  - fold c p in Hlen, Hlast.
    destruct (ceil_div_cases (length coll) p Hp) as [Hc0 Hc1].
    destruct (decide (Z.of_nat (length coll) mod p = 0)) as [Hm|Hm].
    + right. rewrite Hc0 by done. auto.
    + left. by rewrite Hc1.
Qed.

(* ===================================================================== *)
(** ** Properties: arguments are read, never written                      *)
(* ===================================================================== *)

Section HeapFacts.
Import Heap.

Lemma fresh_unused (h : heap) : h !! fresh (dom h) = None.
Proof. apply not_elem_of_dom, is_fresh. Qed.

Lemma keeps_hret {A} h0 (a : A) : keeps h0 (hret a).
Proof. intros h fs r h' fs' Hsub [= <- <- <-]. done. Qed.

Lemma keeps_hbind {A B} h0 (m : HM A) (k : A → HM B) :
  keeps h0 m → (∀ a, keeps h0 (k a)) → keeps h0 (hbind m k).
Proof.
  intros Hm Hk h fs r h' fs' Hsub. unfold hbind.
  destruct (m h fs) as [[[[a|e] h1] fs1]|] eqn:Hrun; [| |done].
  - intros Hka. eapply Hk; [|done]. by eapply Hm.
  - intros [= <- <- <-]. by eapply Hm.
Qed.

Lemma hbind_inv {A B} (m : HM A) (k : A → HM B) h fs b h' fs' :
  hbind m k h fs = Some (Ok b, h', fs') →
  ∃ a h1 fs1, m h fs = Some (Ok a, h1, fs1) ∧
              k a h1 fs1 = Some (Ok b, h', fs').
Proof.
  unfold hbind. destruct (m h fs) as [[[[a|e] h1] fs1]|]; [eauto | done..].
Qed.

Lemma keeps_engine {A} h0 (m : M A) : keeps h0 (engine m).
Proof.
  intros h fs r h' fs' Hsub. unfold engine.
  destruct (m fs) as [r1 fs1]. by intros [= <- <- <-].
Qed.

Lemma keeps_alloc h0 c : keeps h0 (alloc c).
Proof.
  intros h fs r h' fs' Hsub [= <- <- <-].
  apply insert_subseteq_r; [|done].
  eapply lookup_weaken_None; [apply fresh_unused | done].
Qed.

(** What follows an allocation may write to the new cell. *)
Lemma keeps_alloc_hbind {B} h0 c (k : loc → HM B) :
  (∀ l, h0 !! l = None → keeps h0 (k l)) → keeps h0 (hbind (alloc c) k).
Proof.
  intros Hk h fs r h' fs' Hsub. unfold hbind, alloc.
  assert (h0 !! fresh (dom h) = None) as Hnew
    by (eapply lookup_weaken_None; [apply fresh_unused | done]).
  apply (Hk _ Hnew). by apply insert_subseteq_r.
Qed.

Lemma keeps_read_obj h0 l : keeps h0 (read_obj l).
Proof.
  intros h fs r h' fs' Hsub. unfold read_obj.
  destruct (h !! l) as [[]|]; try done. by intros [= <- <- <-].
Qed.

Lemma keeps_read_cursor h0 l : keeps h0 (read_cursor l).
Proof.
  intros h fs r h' fs' Hsub. unfold read_cursor.
  destruct (h !! l) as [[]|]; try done. by intros [= <- <- <-].
Qed.

Lemma keeps_read_array h0 l : keeps h0 (read_array l).
Proof.
  intros h fs r h' fs' Hsub. unfold read_array.
  destruct (h !! l) as [[]|]; try done. by intros [= <- <- <-].
Qed.

Lemma keeps_push h0 l x : h0 !! l = None → keeps h0 (push l x).
Proof.
  intros Hl h fs r h' fs' Hsub. unfold push.
  destruct (h !! l) as [[]|]; try done. intros [= <- <- <-].
  by apply insert_subseteq_r.
Qed.

Lemma keeps_push_items h0 data snaps :
  h0 !! data = None → keeps h0 (push_items data snaps).
Proof.
  intros Hdata. induction snaps as [|d snaps IH]; simpl.
  - apply keeps_hret.
  - apply keeps_alloc_hbind. intros item _.
    apply keeps_hbind; [by apply keeps_push | done].
Qed.

Lemma read_only_hret {A} (a : A) : read_only (hret a).
Proof. by intros h fs r h' fs' [= <- <- <-]. Qed.

Lemma read_only_hbind {A B} (m : HM A) (k : A → HM B) :
  read_only m → (∀ a, read_only (k a)) → read_only (hbind m k).
Proof.
  intros Hm Hk h fs r h' fs'. unfold hbind.
  destruct (m h fs) as [[[[a|e] h1] fs1]|] eqn:Hrun; [| |done].
  - intros Hka. apply Hk in Hka. apply Hm in Hrun. congruence.
  - intros [= <- <- <-]. by apply Hm in Hrun.
Qed.

Lemma read_only_engine {A} (m : M A) : read_only (engine m).
Proof.
  intros h fs r h' fs'. unfold engine.
  destruct (m fs) as [r1 fs1]. by intros [= <- <- <-].
Qed.

Lemma read_only_read_constraint l : read_only (read_constraint l).
Proof.
  intros h fs r h' fs'. unfold read_constraint.
  destruct (h !! l) as [[]|]; try done. by intros [= <- <- <-].
Qed.

Lemma read_only_read_array l : read_only (read_array l).
Proof.
  intros h fs r h' fs'. unfold read_array.
  destruct (h !! l) as [[]|]; try done. by intros [= <- <- <-].
Qed.

Lemma read_only_read_cursor l : read_only (read_cursor l).
Proof.
  intros h fs r h' fs'. unfold read_cursor.
  destruct (h !! l) as [[]|]; try done. by intros [= <- <- <-].
Qed.

Lemma read_only_keeps {A} h0 (m : HM A) : read_only m → keeps h0 m.
Proof. intros Hm h fs r h' fs' Hsub Hrun. by rewrite (Hm _ _ _ _ _ Hrun). Qed.

Lemma read_only_forEach q ls : read_only (forEach_constraint q ls).
Proof.
  revert q. induction ls as [|l ls IH]; intros q; simpl.
  - apply read_only_hret.
  - apply read_only_hbind; [apply read_only_read_constraint | auto].
Qed.

Lemma read_only_applyQueryConstraints q arr :
  read_only (Heap._applyQueryConstraints q arr).
Proof.
  apply read_only_hbind; [apply read_only_read_array|].
  intros ls. apply read_only_forEach.
Qed.

Lemma read_only_applyCursor q cursor : read_only (Heap._applyCursor q cursor).
Proof.
  apply read_only_hbind; [apply read_only_read_cursor|].
  intros c. apply read_only_engine.
Qed.

Context `{QueryEngine}.

Lemma keeps_collectionQuery h0 refStr arr cursor :
  keeps h0 (Heap.collectionQuery refStr arr cursor).
Proof.
  unfold Heap.collectionQuery.
  apply keeps_hbind;
    [apply read_only_keeps, read_only_applyQueryConstraints|].
  intros q0. apply keeps_hbind.
  { destruct cursor; [apply read_only_keeps, read_only_applyCursor
                     | apply keeps_hret]. }
  intros q. apply keeps_hbind; [apply keeps_engine|].
  intros snaps. apply keeps_alloc_hbind. intros data Hdata.
  apply keeps_hbind; [by apply keeps_push_items|].
  intros _. apply keeps_hret.
Qed.

Lemma keeps_cursorQuery h0 refStr arr _cursor :
  keeps h0 (Heap.cursorQuery refStr arr _cursor).
Proof.
  unfold Heap.cursorQuery. apply keeps_hbind.
  { destruct _cursor; [apply keeps_hret | apply keeps_alloc]. }
  intros cursor. apply keeps_hbind; [apply keeps_collectionQuery|].
  intros data. apply keeps_hbind; [apply keeps_read_array|].
  intros items. apply keeps_hbind; [apply keeps_read_cursor|].
  intros c. apply keeps_hbind.
  { destruct (_ =? _)%nat; [apply keeps_hret|]. unfold last_ref.
    destruct (items !! _); [|apply keeps_hret].
    apply keeps_hbind; [apply keeps_read_obj|]. intros o. apply keeps_hret. }
  intros sa. apply keeps_hbind; [apply keeps_alloc|].
  intros result. apply keeps_hret.
Qed.

(** The cursor answered is a cell that did not exist before the call. *)
Lemma cursorQuery_answers_new_cell refStr arr _cursor h fs data c' h' fs' :
  Heap.cursorQuery refStr arr _cursor h fs = Some (Ok (data, c'), h', fs') →
  h !! c' = None ∧ ∃ c, h' !! c' = Some (CCursor c).
Proof.
  unfold Heap.cursorQuery. intros Hrun.
  apply hbind_inv in Hrun as (cursor & h1 & fs1 & Hcur & Hrun).
  assert (Hsub1 : h ⊆ h1).
  { destruct _cursor; [by eapply keeps_hret | by eapply keeps_alloc]. }
  apply hbind_inv in Hrun as (d & h2 & fs2 & Hcoll & Hrun).
  apply (keeps_collectionQuery h) in Hcoll as Hsub2; [|done].
  apply hbind_inv in Hrun as (items & h3 & fs3 & Harr & Hrun).
  apply (keeps_read_array h) in Harr as Hsub3; [|done].
  apply hbind_inv in Hrun as (c & h4 & fs4 & Hc & Hrun).
  apply (keeps_read_cursor h) in Hc as Hsub4; [|done].
  apply hbind_inv in Hrun as (sa & h5 & fs5 & Hsa & Hrun).
  assert (Hsub5 : h ⊆ h5).
  { destruct (_ =? _)%nat; [by eapply keeps_hret|]. unfold last_ref in Hsa.
    destruct (items !! _); [|by eapply keeps_hret].
    apply hbind_inv in Hsa as (o & h6 & fs6 & Ho & Hsa).
    apply (keeps_read_obj h) in Ho; [|done].
    unfold hret in Hsa. by simplify_eq. }
  apply hbind_inv in Hrun as (result & h6 & fs6 & Hres & Hrun).
  unfold alloc in Hres. injection Hres as <- <- <-.
  unfold hret in Hrun. injection Hrun as <- <- <- <-.
  split.
  - eapply lookup_weaken_None; [apply fresh_unused | done].
  - eexists. apply lookup_insert_eq.
Qed.

End HeapFacts.

Section HeapRuns.
Context `{QueryEngine}.

(** [queryData] on a reference to an item: the clone is a new cell holding
    the stripped fields; nothing else changes. *)
Lemma heap_queryData_run qr o (h : Heap.heap) fs :
  h !! qr = Some (Heap.CObj o) →
  Heap.queryData qr h fs
  = Some (Ok (fresh (dom h)),
          <[fresh (dom h) := Heap.CObj (queryData o)]> h, fs).
Proof.
  intros Hqr. unfold Heap.queryData, Heap.hbind, Heap.read_obj, Heap.alloc, Heap.delete_field, Heap.hret.
  rewrite Hqr. rewrite lookup_insert_eq. rewrite insert_insert_eq.
  rewrite lookup_insert_eq. by rewrite insert_insert_eq.
Qed.

Lemma heap_queryData_inv qr (h : Heap.heap) fs r h' fs' :
  Heap.queryData qr h fs = Some (r, h', fs') →
  ∃ o, h !! qr = Some (Heap.CObj o) ∧ r = Ok (fresh (dom h)) ∧
       h' = <[fresh (dom h) := Heap.CObj (queryData o)]> h.
Proof.
  intros Hrun. destruct (h !! qr) as [[o| | |]|] eqn:Hqr;
    try (unfold Heap.queryData, Heap.hbind, Heap.read_obj in Hrun;
         by rewrite Hqr in Hrun).
  rewrite (heap_queryData_run qr o h fs Hqr) in Hrun.
  injection Hrun as <- <- <-. eauto.
Qed.

(** [_applyQueryConstraints] on a reference to an array of constraints
    computes what the function on values computes. *)
Lemma heap_applyQueryConstraints_run q arr ls cs (h : Heap.heap) fs :
  h !! arr = Some (Heap.CArray ls) →
  Forall2 (λ l c, h !! l = Some (Heap.CConstraint c)) ls cs →
  Heap._applyQueryConstraints q arr h fs
  = Some (Ok (_applyQueryConstraints q cs), h, fs).
Proof.
  intros Harr Hcs. unfold Heap._applyQueryConstraints, Heap.hbind, Heap.read_array.
  rewrite Harr. clear Harr. revert q.
  induction Hcs as [|l c ls cs Hl _ IH]; intros q; simpl; [done|].
  unfold Heap.hbind, Heap.read_constraint. rewrite Hl. apply IH.
Qed.

(** C9. Whatever the heap holds, [cursorQuery], [collectionQuery] and
    [queryData] leave every cell that existed before the call as it was, so
    the cursor, the constraint list and each constraint and the item passed
    in read the same afterwards; [_applyQueryConstraints] leaves the whole
    heap as it was.  The cursor [cursorQuery] answers and the clone
    [queryData] answers are cells that did not exist before, and the item
    given to [queryData] still holds all its fields. *)
Theorem arguments_are_left_unchanged (h : Heap.heap) fs :
  (∀ refStr arr _cursor r h' fs',
     Heap.cursorQuery refStr arr _cursor h fs = Some (r, h', fs') →
     (∀ l v, h !! l = Some v → h' !! l = Some v) ∧
     (∀ data c', r = Ok (data, c') →
        h !! c' = None ∧ ∃ c, h' !! c' = Some (Heap.CCursor c))) ∧
  (∀ refStr arr cursor r h' fs',
     Heap.collectionQuery refStr arr cursor h fs = Some (r, h', fs') →
     ∀ l v, h !! l = Some v → h' !! l = Some v) ∧
  (∀ q arr r h' fs',
     Heap._applyQueryConstraints q arr h fs = Some (r, h', fs') → h' = h) ∧
  (∀ qr r h' fs',
     Heap.queryData qr h fs = Some (r, h', fs') →
     (∀ l v, h !! l = Some v → h' !! l = Some v) ∧
     ∃ o clone,
       h !! qr = Some (Heap.CObj o) ∧ h' !! qr = Some (Heap.CObj o) ∧
       r = Ok clone ∧ h !! clone = None ∧
       h' !! clone = Some (Heap.CObj (queryData o))).
Proof.
  split; [|split; [|split]].
  - intros refStr arr _cursor r h' fs' Hrun. split.
    + intros l v Hl. eapply lookup_weaken; [done|].
      eapply (keeps_cursorQuery h); [|done]. done.
    + intros data c' ->. by eapply cursorQuery_answers_new_cell.
  - intros refStr arr cursor r h' fs' Hrun l v Hl.
    eapply lookup_weaken; [done|].
    eapply (keeps_collectionQuery h); [|done]. done.
  - intros q arr r h' fs' Hrun.
    by eapply read_only_applyQueryConstraints.
  - intros qr r h' fs' Hrun.
    apply heap_queryData_inv in Hrun as (o & Hqr & -> & ->). split.
    + intros l v Hl. rewrite lookup_insert_ne; [done|].
      intros <-. by rewrite fresh_unused in Hl.
    + exists o, (fresh (dom h)). split; [done|]. split.
      { rewrite lookup_insert_ne; [done|].
        intros Heq. by rewrite <- Heq, fresh_unused in Hqr. }
      split; [done|]. split; [apply fresh_unused | apply lookup_insert_eq].
Qed.

End HeapRuns.

(* ===================================================================== *)
(** ** The functions by reference compute what the functions on values do *)
(* ===================================================================== *)

Section HeapRefines.
Context `{QueryEngine}.

Lemma push_items_run snaps : ∀ data items (h : Heap.heap) fs,
  h !! data = Some (Heap.CArray items) →
  ∃ h' new,
    Heap.push_items data snaps h fs = Some (Ok tt, h', fs) ∧
    h' !! data = Some (Heap.CArray (items ++ new)) ∧
    Forall2 (λ l d, h' !! l = Some (Heap.CObj (to_QR d))) new snaps ∧
    (∀ l v, l ≠ data → h !! l = Some v → h' !! l = Some v).
Proof.
  induction snaps as [|d snaps IH]; intros data items h fs Hdata.
  - exists h, []. rewrite app_nil_r. repeat split; auto.
  - simpl. unfold Heap.hbind at 1. unfold Heap.alloc.
    set (item := fresh (dom h)).
    assert (Hitem : h !! item = None) by apply fresh_unused.
    assert (Hne : item ≠ data) by (intros Heq; congruence).
    unfold Heap.hbind at 1. unfold Heap.push.
    rewrite lookup_insert_ne by done. rewrite Hdata.
    set (h2 := <[data := Heap.CArray (items ++ [item])]>
                 (<[item := Heap.CObj (to_QR d)]> h)).
    destruct (IH data (items ++ [item]) h2 fs)
      as (h' & new & Hrun & Hd' & Hnew & Hframe).
    { unfold h2. apply lookup_insert_eq. }
    exists h', (item :: new). rewrite Hrun. split; [done|].
    split; [by rewrite <- app_assoc in Hd'|]. split.
    + constructor; [|done]. apply Hframe; [done|].
      unfold h2. rewrite lookup_insert_ne by done. apply lookup_insert_eq.
    + intros l v Hl Hv. apply Hframe; [done|].
      unfold h2. rewrite lookup_insert_ne by done.
      rewrite lookup_insert_ne; [done|]. intros <-. congruence.
Qed.

Lemma heap_applyCursor_run q cursor c (h : Heap.heap) fs :
  h !! cursor = Some (Heap.CCursor c) →
  Heap._applyCursor q cursor h fs
  = Some ((_applyCursor q c fs).1, h, (_applyCursor q c fs).2).
Proof.
  intros Hc. unfold Heap._applyCursor, Heap.hbind, Heap.read_cursor.
  rewrite Hc. unfold Heap.engine. by destruct (_applyCursor q c fs).
Qed.

Lemma heap_collectionQuery_run refStr arr ls cs cursor c (h : Heap.heap) fs :
  h !! arr = Some (Heap.CArray ls) →
  Forall2 (λ l k, h !! l = Some (Heap.CConstraint k)) ls cs →
  h !! cursor = Some (Heap.CCursor c) →
  match collectionQuery refStr cs (Some c) fs with
  | (Ok data, fs') =>
      ∃ dl h' items,
        Heap.collectionQuery refStr arr (Some cursor) h fs
          = Some (Ok dl, h', fs') ∧
        h ⊆ h' ∧ h !! dl = None ∧
        h' !! dl = Some (Heap.CArray items) ∧
        Forall2 (λ l o, h' !! l = Some (Heap.CObj o)) items data
  | (Err e, fs') =>
      Heap.collectionQuery refStr arr (Some cursor) h fs
        = Some (Err e, h, fs')
  end.
Proof.
  intros Harr Hcs Hc.
  set (q0 := _applyQueryConstraints (collection refStr) cs).
  set (dl := fresh (dom h)).
  assert (Hheap : Heap.collectionQuery refStr arr (Some cursor) h fs
    = match _applyCursor q0 c fs with
      | (Ok q, fs1) =>
          match query_get q fs1 with
          | (Ok snaps, fs2) =>
              Heap.hbind (Heap.push_items dl snaps) (λ _, Heap.hret dl)
                         (<[dl := Heap.CArray []]> h) fs2
          | (Err e, fs2) => Some (Err e, h, fs2)
          end
      | (Err e, fs1) => Some (Err e, h, fs1)
      end).
  { unfold Heap.collectionQuery. unfold Heap.hbind at 1.
    rewrite (heap_applyQueryConstraints_run _ arr ls cs h fs Harr Hcs).
    fold q0. unfold Heap.hbind at 1.
    rewrite (heap_applyCursor_run _ cursor c h fs Hc).
    destruct (_applyCursor q0 c fs) as [[q|e] fs1]; simpl; [|done].
    unfold Heap.hbind at 1. unfold Heap.engine.
    destruct (query_get q fs1) as [[snaps|e] fs2]; [|done]. done. }
  rewrite Hheap. unfold collectionQuery, bind. fold q0.
  destruct (_applyCursor q0 c fs) as [[q|e] fs1]; [|done].
  destruct (query_get q fs1) as [[snaps|e] fs2]; [|done].
  destruct (push_items_run snaps dl [] (<[dl := Heap.CArray []]> h) fs2)
    as (h' & items & Hrun & Hdl & Hitems & Hframe);
    [apply lookup_insert_eq|].
  unfold Heap.hbind. rewrite Hrun. unfold Heap.hret, ret.
  exists dl, h', items. split; [done|]. split; [|split; [|split]].
  - apply map_subseteq_spec. intros l v Hl. apply Hframe.
    + intros ->. unfold dl in Hl. by rewrite fresh_unused in Hl.
    + rewrite lookup_insert_ne; [done|].
      intros <-. unfold dl in Hl. by rewrite fresh_unused in Hl.
  - apply fresh_unused.
  - done.
  - by apply Forall2_fmap_r.
Qed.

(** [cursorQuery] by reference answers, in new cells, the page and the
    cursor that [cursorQuery] on values answers, and fails when it fails. *)
Lemma heap_cursorQuery_run refStr arr ls cs cursor c (h : Heap.heap) fs :
  h !! arr = Some (Heap.CArray ls) →
  Forall2 (λ l k, h !! l = Some (Heap.CConstraint k)) ls cs →
  h !! cursor = Some (Heap.CCursor c) →
  match cursorQuery refStr cs (Some c) fs with
  | (Ok (data, c'), fs') =>
      ∃ dl cl h' items,
        Heap.cursorQuery refStr arr (Some cursor) h fs
          = Some (Ok (dl, cl), h', fs') ∧
        h' !! cl = Some (Heap.CCursor c') ∧
        h' !! dl = Some (Heap.CArray items) ∧
        Forall2 (λ l o, h' !! l = Some (Heap.CObj o)) items data
  | (Err e, fs') =>
      Heap.cursorQuery refStr arr (Some cursor) h fs = Some (Err e, h, fs')
  end.
Proof.
  intros Harr Hcs Hc.
  pose proof (heap_collectionQuery_run refStr arr ls cs cursor c h fs
                Harr Hcs Hc) as Hcoll.
  unfold cursorQuery, bind. simpl.
  destruct (collectionQuery refStr cs (Some c) fs) as [[data|e] fs1].
  2:{ unfold Heap.cursorQuery. unfold Heap.hbind at 1. unfold Heap.hret at 1.
      unfold Heap.hbind at 1. by rewrite Hcoll. }
  destruct Hcoll as (dl & h1 & items & Hcoll & Hsub & Hnew & Hdl & Hitems).
  unfold ret.
  pose proof (Forall2_length _ _ _ Hitems) as Hlen.
  set (cl := fresh (dom h1)).
  assert (Hcl : cl ≠ dl).
  { intros Heq. unfold cl in Heq. pose proof (fresh_unused h1) as Hf.
    rewrite Heq in Hf. congruence. }
  assert (Hsa : ∀ (k : option string → Heap.HM (Heap.loc * Heap.loc)),
    Heap.hbind (if (length items =? 0)%nat
                then Heap.hret (startAfter c)
                else Heap.last_ref items) k h1 fs1
    = k (if (length data =? 0)%nat then startAfter c
         else data !! (length data - 1)%nat ≫= item_ref) h1 fs1).
  { intros k. rewrite Hlen. destruct (length data =? 0)%nat eqn:Hz; [done|].
    apply Nat.eqb_neq in Hz. unfold Heap.last_ref. rewrite Hlen.
    destruct (data !! (length data - 1)%nat) as [o|] eqn:Ho.
    - destruct (Forall2_lookup_r _ _ _ _ _ Hitems Ho) as (l & Hl & Hlo).
      rewrite Hl. unfold Heap.hbind, Heap.read_obj. by rewrite Hlo.
    - apply lookup_ge_None in Ho. lia. }
  assert (Hrun : Heap.cursorQuery refStr arr (Some cursor) h fs
                 = Some (Ok (dl, cl),
                         <[cl := Heap.CCursor (update_cursor c data)]> h1,
                         fs1)).
  { unfold Heap.cursorQuery. unfold Heap.hbind at 1. unfold Heap.hret at 1.
    unfold Heap.hbind at 1. rewrite Hcoll.
    unfold Heap.hbind at 1. unfold Heap.read_array. rewrite Hdl.
    unfold Heap.hbind at 1. unfold Heap.read_cursor.
    rewrite (lookup_weaken _ _ _ _ Hc Hsub).
    rewrite Hsa. unfold Heap.hbind, Heap.alloc, Heap.hret. fold cl.
    by rewrite Hlen. }
  exists dl, cl, (<[cl := Heap.CCursor (update_cursor c data)]> h1), items.
  split; [done|]. split; [apply lookup_insert_eq|].
  split; [by rewrite lookup_insert_ne|].
  eapply Forall2_impl; [done|]. intros l o Hl. simpl in Hl.
  rewrite lookup_insert_ne; [done|].
  intros <-. unfold cl in Hl. by rewrite fresh_unused in Hl.
Qed.

End HeapRefines.

(* ===================================================================== *)
(** ** The properties at work on the sample collection                    *)
(* ===================================================================== *)

Ltac by_decision := apply (bool_decide_unpack _); vm_compute; exact I.

Lemma sample_paths_NoDup : NoDup (map doc_path (docs sample_store)).
Proof. by_decision. Defined.

(** Three records, batch size 2: three rounds (2, 1, 0 records). *)
Lemma deleteCollection_empties_collection_witness :
  let coll := in_collection "items" (docs sample_store) in
  ∃ run,
    deleteCollection "items" 2 sample_store = Some run ∧
    run_promise run = Resolved true ∧
    Z.of_nat (run_rounds run) = ceil_div (length coll) 2 + 1 ∧
    length (run_snapshots run) = run_rounds run ∧
    last (run_snapshots run) = Some [] ∧
    run_deleted run = map doc_path coll ∧
    NoDup (run_deleted run) ∧
    in_collection "items" (docs (run_store run)) = [].
Proof.
  apply (deleteCollection_empties_collection "items" 2 sample_store).
  - exact sample_paths_NoDup.
  - reflexivity.
  - unfold max_batch. lia.
Defined.

(** A full first page of two records out of three. *)
Lemma cursorQuery_advances_cursor_witness :
  let data := map to_QR (take 2 sample_docs) in
  let c' := mkCursor 2 true (Some "items/b") in
  (hasNext c' = true ↔ Z.of_nat (length data) = 2) ∧
  (data = [] → startAfter c' = None ∧ (hasNext c' = false ↔ 2 ≠ 0)) ∧
  (data ≠ [] →
     ∃ item r, last data = Some item ∧ item !! "ref" = Some (VStr r) ∧
               startAfter c' = Some r).
Proof.
  intros data c'.
  apply (cursorQuery_advances_cursor "items" []
           (Some (mkCursor 2 true None)) sample_store data c' sample_store).
  vm_compute. reflexivity.
Defined.

(** Three records, page size 2: two calls, pages of 2 and 1. *)
Lemma pagination_retrieves_every_record_witness :
  let coll := in_collection "items" (docs sample_store) in
  ∃ pages,
    paginate 3 "items" [] (Some (mkCursor 2 true None)) sample_store
      = Some (Ok pages, sample_store) ∧
    concat pages = map to_QR coll ∧
    NoDup (concat pages) ∧
    (Z.of_nat (length pages) = ceil_div (length coll) 2 ∨
     (Z.of_nat (length pages) = ceil_div (length coll) 2 + 1 ∧
      last pages = Some [])).
Proof.
  apply (pagination_retrieves_every_record "items"
           (Some (mkCursor 2 true None)) sample_store 3).
  - exact sample_paths_NoDup.
  - reflexivity.
  - simpl. lia.
  - reflexivity.
  - vm_compute. reflexivity.
Defined.


(** The record [items/b], whose payload has fields named [id] and [ref]. *)
Lemma items_carry_snapshot_identity_witness :
  ∃ d, d ∈ docs sample_store ∧ doc_path d = "items/b" ∧
       carries_identity d
         (to_QR (mkDoc "items" "b"
                       {[ "id" := VStr "mine"; "ref" := VNum 7 ]})).
Proof.
  apply (proj1 (items_carry_snapshot_identity "items/b" None [] None
                  sample_store) _ sample_store).
  vm_compute. reflexivity.
Defined.

(** No record at the document path [items/abc], with a transaction handle
    and without. *)
Lemma docQuery_missing_is_null_witness :
  is_document_path "items/abc" = true ∧
  docQuery "items/abc" None sample_store = (Ok None, sample_store) ∧
  docQuery "items/abc" (Some (mkTxn sample_docs)) sample_store
    = (Ok None, sample_store).
Proof.
  split; [reflexivity|].
  split; apply docQuery_missing_is_null; try reflexivity;
    apply (Forall_forall (λ d, doc_path d ≠ "items/abc")); by_decision.
Defined.

(** The cursor after the first page keeps page size 2. *)
Lemma cursorQuery_preserves_interval_witness :
  interval (mkCursor 2 true (Some "items/b")) = 2.
Proof.
  apply (proj1 (cursorQuery_preserves_interval "items" []
                  (mkCursor 2 true None))
           sample_store (map to_QR (take 2 sample_docs)) _ sample_store).
  vm_compute. reflexivity.
Defined.

Lemma arguments_are_left_unchanged_witness :
  ∃ r h' fs',
    Heap.cursorQuery "items" 1%nat (Some 0%nat) sample_heap sample_store
      = Some (r, h', fs') ∧
    h' !! 0%nat = Some (Heap.CCursor (mkCursor 2 true None)) ∧
    h' !! 1%nat = Some (Heap.CArray []).
Proof.
  eexists _, _, _. split; [vm_compute; reflexivity|].
  pose proof (proj1 (arguments_are_left_unchanged (H := basic_engine)
                       sample_heap sample_store)
                "items" 1%nat (Some 0%nat) _ _ _ eq_refl) as [Hkept _].
  split; apply Hkept; reflexivity.
Defined.

(* ===================================================================== *)
(** ** Further properties: composing constraints                          *)
(* ===================================================================== *)

(** X1. [_applyQueryConstraints] adds one clause per constraint, in the
    order of the list, after the clauses the query already has; it drops
    none, merges none, and leaves the collection, the start position and
    the limit of the query alone. *)
Theorem applyQueryConstraints_keeps_order q cs :
  q_clauses (_applyQueryConstraints q cs) = q_clauses q ++ map clause_of cs ∧
  length (q_clauses (_applyQueryConstraints q cs))
    = (length (q_clauses q) + length cs)%nat ∧
  q_collection (_applyQueryConstraints q cs) = q_collection q ∧
  q_startAfter (_applyQueryConstraints q cs) = q_startAfter q ∧
  q_limit (_applyQueryConstraints q cs) = q_limit q.
Proof.
  rewrite apply_constraints_spec. simpl.
  by rewrite length_app, length_map.
Qed.

(** X2. Applying a list of constraints and then a second list to the
    result is applying the two lists put end to end. *)
Theorem applyQueryConstraints_app q cs1 cs2 :
  _applyQueryConstraints q (cs1 ++ cs2)
  = _applyQueryConstraints (_applyQueryConstraints q cs1) cs2.
Proof. unfold _applyQueryConstraints. apply fold_left_app. Qed.

(* ===================================================================== *)
(** ** Further properties: what the reads do to the engine                *)
(* ===================================================================== *)

Section Steps.
Variable R : Firestore → Firestore → Prop.
Hypothesis R_refl : ∀ fs, R fs fs.
Hypothesis R_trans : ∀ fs1 fs2 fs3, R fs1 fs2 → R fs2 fs3 → R fs1 fs3.
Hypothesis R_call : steps_in R engine_call.

Lemma steps_ret {A} (a : A) : steps_in R (ret a).
Proof. intros fs. apply R_refl. Qed.

Lemma steps_lift {A} (r : Result A) : steps_in R (lift r).
Proof. intros fs. apply R_refl. Qed.

Lemma steps_bind {A B} (m : M A) (k : A → M B) :
  steps_in R m → (∀ a, steps_in R (k a)) → steps_in R (bind m k).
Proof.
  intros Hm Hk fs. unfold bind. specialize (Hm fs).
  destruct (m fs) as [[a|e] fs1]; simpl in *; [|done].
  eapply R_trans; [done | apply Hk].
Qed.

Lemma steps_doc_get path : steps_in R (doc_get path).
Proof.
  apply steps_bind; [intros fs; apply R_refl|]. intros _.
  apply steps_bind; [done|]. intros _ fs. apply R_refl.
Qed.

Lemma steps_txn_get t path : steps_in R (txn_get t path).
Proof.
  apply steps_bind; [apply steps_lift|]. intros _.
  apply steps_bind; [done|]. intros _. apply steps_ret.
Qed.

Lemma steps_applyCursor q c : steps_in R (_applyCursor q c).
Proof.
  apply steps_bind; [|intros; apply steps_ret].
  destruct (truthy_str _); [|apply steps_ret].
  apply steps_bind; [apply steps_doc_get | intros; apply steps_lift].
Qed.

Lemma steps_docQuery refStr t : steps_in R (docQuery refStr t).
Proof.
  apply steps_bind; [|intros; apply steps_ret].
  destruct t; [apply steps_txn_get | apply steps_doc_get].
Qed.

Context `{QueryEngine}.

Lemma steps_query_get q : steps_in R (query_get q).
Proof.
  apply steps_bind; [done|]. intros _ fs. apply R_refl.
Qed.

Lemma steps_collectionQuery refStr cs cursor :
  steps_in R (collectionQuery refStr cs cursor).
Proof.
  apply steps_bind.
  { destruct cursor; [apply steps_applyCursor | apply steps_ret]. }
  intros q. apply steps_bind; [apply steps_query_get|].
  intros; apply steps_ret.
Qed.

Lemma steps_cursorQuery refStr cs _cursor :
  steps_in R (cursorQuery refStr cs _cursor).
Proof.
  apply steps_bind; [apply steps_collectionQuery | intros; apply steps_ret].
Qed.

End Steps.

Lemma engine_call_faults fs r fs' :
  engine_call fs = (r, fs') → faults fs' = drop 1 (faults fs).
Proof.
  unfold engine_call. destruct (faults fs) as [|[e|] rest] eqn:Hf;
    intros [= <- <-]; simpl; by rewrite ?Hf.
Qed.

Lemma same_table_call : steps_in same_table engine_call.
Proof.
  intros fs. destruct (engine_call fs) as [r fs'] eqn:Hc.
  by apply engine_call_docs in Hc.
Qed.

Lemma quiet_same_call : steps_in quiet_same engine_call.
Proof. intros fs Hf. by rewrite (engine_call_quiet _ Hf). Qed.

Lemma same_table_trans fs1 fs2 fs3 :
  same_table fs1 fs2 → same_table fs2 fs3 → same_table fs1 fs3.
Proof. unfold same_table. congruence. Qed.

Lemma quiet_same_trans fs1 fs2 fs3 :
  quiet_same fs1 fs2 → quiet_same fs2 fs3 → quiet_same fs1 fs3.
Proof.
  unfold quiet_same. intros H12 H23 Hf. specialize (H12 Hf). subst fs2. auto.
Qed.

(** X3. [docQuery], [collectionQuery] and [cursorQuery] never change the
    document table, whether they succeed or fail. *)
Theorem reads_leave_the_table `{QueryEngine} refStr t cs cursor fs :
  docs (docQuery refStr t fs).2 = docs fs ∧
  docs (collectionQuery refStr cs cursor fs).2 = docs fs ∧
  docs (cursorQuery refStr cs cursor fs).2 = docs fs.
Proof.
  repeat split.
  - by apply (steps_docQuery same_table);
      [| apply same_table_trans | apply same_table_call].
  - by apply (steps_collectionQuery same_table);
      [| apply same_table_trans | apply same_table_call].
  - by apply (steps_cursorQuery same_table);
      [| apply same_table_trans | apply same_table_call].
Qed.

Section ReadFacts.
Context `{QueryEngine}.

Lemma query_get_ok q fs fs' :
  engine_call fs = (Ok tt, fs') →
  query_get q fs = (run_query q (docs fs), fs').
Proof.
  intros Hcall. unfold query_get. rewrite (bind_step _ _ _ _ _ Hcall).
  by rewrite (engine_call_docs _ _ _ Hcall).
Qed.

Lemma collectionQuery_answers_whole_collection_aux refStr fs fs' :
  engine_call fs = (Ok tt, fs') →
  collectionQuery refStr [] None fs
  = (Ok (map to_QR (in_collection refStr (docs fs))), fs').
Proof.
  intros Hcall. unfold collectionQuery, bind, ret. simpl.
  rewrite (query_get_ok _ _ _ Hcall).
  unfold run_query. simpl. by rewrite eval_clauses_nil.
Qed.

(** X4. Without constraints and without a cursor, [collectionQuery]
    answers every record of the collection and no record of another one,
    in the engine's identity order, as long as the query goes through. *)
Theorem collectionQuery_answers_whole_collection refStr fs fs' :
  engine_call fs = (Ok tt, fs') →
  collectionQuery refStr [] None fs
  = (Ok (map to_QR (in_collection refStr (docs fs))), fs').
Proof.
  apply collectionQuery_answers_whole_collection_aux.
Qed.

(** X5. When the first storage call of a read fails, [docQuery] on a
    document path, and [collectionQuery] and [cursorQuery] with a cursor
    whose [startAfter] is unset, empty or a document path, fail with the
    engine's error as it is, and [cursorQuery] answers no cursor. *)
Theorem reads_hand_on_the_engine_error path t refStr cs cursor fs e fs' :
  engine_call fs = (Err e, fs') →
  is_document_path path = true →
  (∀ c, cursor = Some c → truthy_str (startAfter c) = true →
        is_document_path (default "" (startAfter c)) = true) →
  docQuery path t fs = (Err e, fs') ∧
  collectionQuery refStr cs cursor fs = (Err e, fs') ∧
  cursorQuery refStr cs cursor fs = (Err e, fs').
Proof.
  intros Hcall Hpath Hcursor.
  assert (Hget : ∀ p, is_document_path p = true →
                      doc_get p fs = (Err e, fs')).
  { intros p Hp. unfold doc_get, bind.
    by rewrite (firestore_doc_document_path _ _ Hp), Hcall. }
  assert (Hq : ∀ q, query_get q fs = (Err e, fs')).
  { intros q. unfold query_get. by rewrite (bind_fail _ _ _ _ _ Hcall). }
  assert (Hcoll : ∀ cur,
    (∀ c, cur = Some c → truthy_str (startAfter c) = true →
          is_document_path (default "" (startAfter c)) = true) →
    collectionQuery refStr cs cur fs = (Err e, fs')).
  { intros cur Hcur. unfold collectionQuery. destruct cur as [c|].
    - unfold _applyCursor.
      destruct (truthy_str (startAfter c)) eqn:Htruthy.
      + erewrite bind_fail; [done|]. erewrite bind_fail; [done|].
        erewrite bind_fail; [done|]. by apply Hget, (Hcur c).
      + unfold bind at 1. unfold bind at 1. unfold ret at 1. unfold ret at 1.
        by erewrite bind_fail.
    - unfold bind at 1. unfold ret at 1. by erewrite bind_fail. }
  split; [|split].
  - unfold docQuery. erewrite bind_fail; [done|].
    destruct t as [t|]; [|by apply Hget]. unfold txn_get, bind, lift.
    by rewrite (firestore_doc_document_path _ _ Hpath), Hcall.
  - by apply Hcoll.
  - unfold cursorQuery. erewrite bind_fail; [done|]. apply Hcoll.
    intros c [= <-]. destruct cursor as [c|]; [by apply Hcursor|done].
Qed.

(** X6. A successful [cursorQuery] makes one storage call, the query, when
    the cursor has no position (no [startAfter], or the empty string), and
    two, the fetch of the referenced record and then the query, when it
    has one. *)
Theorem cursorQuery_storage_calls refStr cs _cursor fs r fs' :
  cursorQuery refStr cs _cursor fs = (Ok r, fs') →
  let c := default default_cursor _cursor in
  faults fs' = drop (if truthy_str (startAfter c) then 2 else 1) (faults fs).
Proof.
  intros Hc c. destruct r as [data c'].
  apply cursorQuery_inv in Hc as [Hcoll _]. fold c in Hcoll.
  apply collectionQuery_inv in Hcoll as (q & fs1 & snaps & Hq & Hg & _).
  apply applyCursor_inv in Hq as (_ & _ & _ & _ & Hpos).
  apply query_get_inv in Hg as (Hcall2 & _ & _).
  apply engine_call_faults in Hcall2.
  destruct (truthy_str (startAfter c)).
  - destruct Hpos as (_ & _ & _ & Hcall1).
    apply engine_call_faults in Hcall1.
    rewrite Hcall2, Hcall1. by rewrite drop_drop.
  - destruct Hpos as [_ ->]. done.
Qed.

Lemma run_query_limit q table rows n :
  q_limit q = Some n → run_query q table = Ok rows →
  Z.of_nat (length rows) ≤ n.
Proof.
  intros Hlim. unfold run_query.
  destruct (eval_clauses _ _) as [base|]; [|done].
  destruct (apply_startAfter _ _ base) as [after|]; [|done].
  rewrite Hlim. simpl. destruct (n <? 0) eqn:Hneg; [done|].
  intros [= <-]. apply Z.ltb_ge in Hneg.
  pose proof (firstn_le_length (Z.to_nat n) after).
  lia.
Qed.

(** X7. A page answered by [cursorQuery] is never longer than the interval
    of the cursor, when that interval is not 0; without a cursor it has at
    most 10 items. *)
Theorem cursorQuery_page_is_bounded refStr cs _cursor fs data c' fs' :
  cursorQuery refStr cs _cursor fs = (Ok (data, c'), fs') →
  let c := default default_cursor _cursor in
  interval c ≠ 0 →
  Z.of_nat (length data) ≤ interval c.
Proof.
  intros Hc c Hi. apply cursorQuery_inv in Hc as [Hcoll _]. fold c in Hcoll.
  apply collectionQuery_inv in Hcoll as (q & fs1 & snaps & Hq & Hg & ->).
  apply applyCursor_inv in Hq as (_ & _ & Hlim & Hdocs & _).
  apply query_get_inv in Hg as (_ & _ & Hrun).
  unfold truthy_num in Hlim.
  rewrite (proj2 (Z.eqb_neq _ _) Hi) in Hlim. simpl in Hlim.
  rewrite length_map. by eapply run_query_limit.
Qed.

End ReadFacts.

(* ===================================================================== *)
(** ** Further properties: cursors, single documents, write-back          *)
(* ===================================================================== *)

Section MoreCursorFacts.
Context `{QueryEngine}.

Lemma collectionQuery_reads_interval_and_position refStr cs c1 c2 :
  interval c1 = interval c2 → startAfter c1 = startAfter c2 →
  collectionQuery refStr cs (Some c1) = collectionQuery refStr cs (Some c2).
Proof.
  intros Hi Hs. unfold collectionQuery, _applyCursor. by rewrite Hi, Hs.
Qed.

(** X8. [cursorQuery] never reads the [hasNext] flag of the cursor it is
    given: two cursors that differ only in that flag get the same page and
    the same new cursor. *)
Theorem cursorQuery_ignores_hasNext refStr cs i h1 h2 sa fs :
  cursorQuery refStr cs (Some (mkCursor i h1 sa)) fs
  = cursorQuery refStr cs (Some (mkCursor i h2 sa)) fs.
Proof.
  unfold cursorQuery. cbn [from_option id].
  rewrite (collectionQuery_reads_interval_and_position refStr cs
             (mkCursor i h1 sa) (mkCursor i h2 sa)) by done.
  done.
Qed.

(** X9. Once a page has come back empty, asking again with the cursor that
    was answered gives the empty page and the same cursor again, as long
    as the engine does not fail and the table has not changed. *)
Theorem empty_page_is_answered_again refStr cs c c' fs fs' :
  faults fs = [] →
  cursorQuery refStr cs (Some c) fs = (Ok ([], c'), fs') →
  cursorQuery refStr cs (Some c') fs' = (Ok ([], c'), fs').
Proof.
  intros Hf Hc.
  assert (fs' = fs) as ->.
  { pose proof (steps_cursorQuery quiet_same
                  (λ _ _, eq_refl) quiet_same_trans quiet_same_call
                  refStr cs (Some c) fs Hf) as Hq.
    by rewrite Hc in Hq. }
  apply cursorQuery_inv in Hc as [Hcoll ->]. simpl in *.
  unfold cursorQuery. simpl.
  rewrite (collectionQuery_reads_interval_and_position refStr cs
             (update_cursor c []) c) by done.
  by rewrite (bind_step _ _ _ _ _ Hcoll).
Qed.

(** X10. [docQuery] on the path of a stored record answers that record,
    payload and identity, from the transaction's view when a handle is
    given and from the table otherwise, as long as the fetch goes through
    and paths identify records. *)
Theorem docQuery_answers_stored_record d t fs fs' :
  let table := match t with Some t => txn_docs t | None => docs fs end in
  NoDup (map doc_path table) → d ∈ table →
  engine_call fs = (Ok tt, fs') →
  docQuery (doc_path d) t fs = (Ok (Some (to_QR d)), fs').
Proof.
  intros table Hnd Hd Hcall. unfold docQuery.
  destruct t as [t|]; subst table; simpl in Hnd, Hd;
    pose proof (find_doc_stored _ _ Hnd Hd) as Hfind.
  - rewrite (bind_step _ _ _ _ _
              (txn_get_ok t _ fs fs' (firestore_doc_stored _ _ _ Hfind) Hcall)).
    unfold ret. simpl. by rewrite Hfind.
  - rewrite (bind_step _ _ _ _ _
              (doc_get_ok _ fs fs' (firestore_doc_stored _ _ _ Hfind) Hcall)).
    unfold ret. simpl. by rewrite Hfind.
Qed.

Lemma queryData_to_QR_payload d :
  queryData (to_QR d) = queryData (doc_data d).
Proof.
  unfold queryData, to_QR.
  rewrite (delete_insert_ne _ "id" "ref") by done.
  by rewrite delete_insert_eq, delete_insert_eq.
Qed.

(** X11. Stripping an item answered by [docQuery] gives the stored payload
    back, except that payload fields named [id] or [ref] are lost: the
    result is the payload without those two names, and the payload itself
    when it uses neither. *)
Theorem queryData_of_docQuery_is_payload refStr t fs item fs' :
  docQuery refStr t fs = (Ok (Some item), fs') →
  ∃ d, d ∈ match t with Some t => txn_docs t | None => docs fs end ∧
       doc_path d = refStr ∧
       queryData item = delete "ref" (delete "id" (doc_data d)) ∧
       (doc_data d !! "id" = None → doc_data d !! "ref" = None →
        queryData item = doc_data d).
Proof.
  intros Hd. unfold docQuery in Hd. inv_bind Hd. injection Hd as Hitem <-.
  assert (snap_doc a = find_doc refStr
            match t with Some t => txn_docs t | None => docs fs end) as Hs.
  { destruct t as [t|].
    - by apply txn_get_inv in Hm as (_ & _ & ->).
    - by apply doc_get_inv in Hm as (_ & _ & ->). }
  destruct (snap_doc a) as [d|]; [|done]. injection Hitem as <-.
  symmetry in Hs. apply find_doc_Some in Hs as [Hin Hp].
  exists d. split; [done|]. split; [done|]. split.
  - apply queryData_to_QR_payload.
  - intros Hid Href. rewrite queryData_to_QR_payload. unfold queryData.
    rewrite (delete_id (doc_data d) "id") by done. by apply delete_id.
Qed.

(** X12. Without a transaction, a [deleteDoc] on a document path whose
    storage call goes through removes the record at the path and nothing
    else: the table afterwards holds exactly the records of other paths, a
    path without a record is no failure, and [docQuery] on the path then
    answers [null]. *)
Theorem deleteDoc_then_docQuery_is_null refStr fs fs1 :
  is_document_path refStr = true →
  engine_call fs = (Ok tt, fs1) →
  ∃ fs',
    deleteDoc refStr None fs = (Ok None, fs') ∧
    faults fs' = faults fs1 ∧
    (∀ d, d ∈ docs fs' ↔ d ∈ docs fs ∧ doc_path d ≠ refStr) ∧
    (∀ fs'', engine_call fs' = (Ok tt, fs'') →
             docQuery refStr None fs' = (Ok None, fs'')).
Proof.
  intros Hpath Hcall.
  set (fs' := mkFirestore (remove_docs [refStr] (docs fs1)) (faults fs1)).
  assert (Hdocs : ∀ d, d ∈ docs fs' ↔ d ∈ docs fs ∧ doc_path d ≠ refStr).
  { intros d. unfold fs', remove_docs. simpl.
    rewrite (engine_call_docs _ _ _ Hcall), list_elem_of_filter.
    rewrite not_elem_of_cons. split.
    - intros [[Hne _] Hin]. done.
    - intros [Hin Hne]. split; [|done]. split; [done | apply not_elem_of_nil]. }
  exists fs'. split; [|split; [done|split; [done|]]].
  - unfold deleteDoc, doc_delete, bind.
    by rewrite (firestore_doc_document_path _ _ Hpath), Hcall.
  - intros fs'' Hcall'. unfold docQuery.
    rewrite (bind_step _ _ _ _ _
              (doc_get_ok refStr fs' fs''
                 (firestore_doc_document_path _ _ Hpath) Hcall')).
    unfold ret. simpl.
    rewrite find_doc_None; [done|]. intros d Hd. by apply Hdocs in Hd as [_ ?].
Qed.

End MoreCursorFacts.

(* ===================================================================== *)
(** ** Further properties: deleteCollection under any engine              *)
(* ===================================================================== *)

Lemma in_collection_remove_docs c refs l :
  in_collection c (remove_docs refs l) = remove_docs refs (in_collection c l).
Proof.
  unfold in_collection, remove_docs. rewrite !list_filter_filter.
  apply list_filter_iff. tauto.
Qed.

Section MoreDeleteFacts.
Context `{QueryEngine}.

(** A round either leaves the table as it is, or commits the page it was
    given, which is not empty. *)
Lemma delete_round_cases q fs r fs' :
  delete_round q fs = (r, fs') →
  (docs fs' = docs fs ∧ ∀ refs, r ≠ Ok (refs, false)) ∨
  (∃ snaps, r = Ok (map doc_path snaps, false) ∧
            run_query q (docs fs) = Ok snaps ∧ snaps ≠ [] ∧
            docs fs' = remove_docs (map doc_path snaps) (docs fs)).
Proof.
  unfold delete_round, bind.
  destruct (query_get q fs) as [[snaps|e] fs1] eqn:Hq.
  - apply query_get_inv in Hq as (_ & Hdocs & Hrun).
    destruct snaps as [|d snaps]; simpl.
    { intros [= <- <-]. left. split; [done|]. by intros refs [=]. }
    unfold batch_commit, bind.
    destruct (engine_call fs1) as [[[]|e] fs2] eqn:Hcall.
    + apply engine_call_docs in Hcall.
      destruct (max_batch <? _)%nat.
      * intros [= <- <-]. left. split; [congruence | by intros refs [=]].
      * intros [= <- <-]. right. exists (d :: snaps). simpl.
        rewrite Hcall, Hdocs. done.
    + apply engine_call_docs in Hcall. intros [= <- <-]. left.
      split; [congruence | by intros refs [=]].
  - pose proof (steps_query_get same_table (λ _, eq_refl) same_table_trans
                  same_table_call q fs) as Hsame.
    rewrite Hq in Hsame. intros [= <- <-]. left.
    split; [done | by intros refs [=]].
Qed.

Lemma delete_round_shrinks q fs refs fs' :
  delete_round q fs = (Ok (refs, false), fs') →
  (length (in_collection (q_collection q) (docs fs'))
   < length (in_collection (q_collection q) (docs fs)))%nat.
Proof.
  intros Hr. apply delete_round_cases in Hr as [[_ Hno]|Hgo].
  { by destruct (Hno refs). }
  destruct Hgo as (snaps & _ & Hrun & Hne & ->).
  destruct snaps as [|d snaps]; [done|].
  rewrite in_collection_remove_docs.
  apply remove_docs_shrinks with d; [|by left].
  apply run_query_sub in Hrun.
  eapply elem_of_submseteq; [|done]. by left.
Qed.

Lemma deleteQueryBatch_rounds fuel caught q fs :
  (length (in_collection (q_collection q) (docs fs)) < fuel)%nat →
  ∃ run, _deleteQueryBatch fuel caught q fs = Some run ∧
         (run_rounds run
          ≤ S (length (in_collection (q_collection q) (docs fs))))%nat.
Proof.
  revert caught fs. induction fuel as [|fuel IH]; intros caught fs Hlen;
    [lia|].
  simpl. destruct (delete_round q fs) as [[[refs [|]]|e] fs'] eqn:Hr.
  - eexists. split; [done|]. simpl. lia.
  - apply delete_round_shrinks in Hr.
    destruct (IH false fs') as (r & -> & Hrounds); [lia|].
    eexists. split; [done|]. simpl. lia.
  - destruct caught; eexists; (split; [done|]); simpl; lia.
Qed.

(** X13. Whatever the engine does and whatever the batch size,
    [deleteCollection] comes to an end after at most N+1 query rounds on a
    collection of N records: every round that goes on has deleted at least
    one of them. *)
Theorem deleteCollection_rounds_are_bounded refStr b fs :
  ∃ run,
    deleteCollection refStr b fs = Some run ∧
    (run_rounds run ≤ S (length (in_collection refStr (docs fs))))%nat.
Proof.
  apply (deleteQueryBatch_rounds _ true (delete_query refStr b) fs).
  simpl. unfold in_collection.
  pose proof (length_filter (λ d, doc_collection d = refStr) (docs fs)).
  lia.
Qed.

Lemma filter_all {A} (P : A → Prop) `{∀ x, Decision (P x)} (l : list A) :
  Forall P l → filter P l = l.
Proof.
  induction 1 as [|x l Hx _ IH]; [done|].
  rewrite filter_cons_True by done. by f_equal.
Qed.

Lemma remove_docs_spares c other snaps l :
  NoDup (map doc_path l) → other ≠ c →
  (∀ d, d ∈ snaps → d ∈ l ∧ doc_collection d = c) →
  in_collection other (remove_docs (map doc_path snaps) l)
  = in_collection other l.
Proof.
  intros Hnd Hother Hsnaps. rewrite in_collection_remove_docs.
  apply filter_all, Forall_forall. intros d Hd.
  apply list_elem_of_filter in Hd as [Hcoll Hin].
  intros Hp. apply list_elem_of_fmap in Hp as (s & Hps & Hs).
  destruct (Hsnaps s Hs) as [Hsl Hsc].
  assert (d = s) by (by apply (NoDup_path_inj l)). congruence.
Qed.

Lemma delete_round_spares q fs r fs' other :
  NoDup (map doc_path (docs fs)) → other ≠ q_collection q →
  delete_round q fs = (r, fs') →
  in_collection other (docs fs') = in_collection other (docs fs) ∧
  NoDup (map doc_path (docs fs')).
Proof.
  intros Hnd Hother Hr.
  apply delete_round_cases in Hr as [[-> _]|Hgo]; [done|].
  destruct Hgo as (snaps & _ & Hrun & _ & ->). split.
  - apply (remove_docs_spares (q_collection q)); try done.
    intros d Hd. by eapply run_query_elem.
  - by apply remove_docs_paths_NoDup.
Qed.

Lemma deleteQueryBatch_spares fuel caught q fs run other :
  NoDup (map doc_path (docs fs)) → other ≠ q_collection q →
  _deleteQueryBatch fuel caught q fs = Some run →
  in_collection other (docs (run_store run)) = in_collection other (docs fs).
Proof.
  intros Hnd Hother. revert caught fs run Hnd.
  induction fuel as [|fuel IH]; intros caught fs run Hnd; simpl; [done|].
  destruct (delete_round q fs) as [[[refs [|]]|e] fs'] eqn:Hr;
    destruct (delete_round_spares _ _ _ _ other Hnd Hother Hr)
      as [Hsame Hnd'].
  - by intros [= <-].
  - destruct (_deleteQueryBatch fuel false q fs') as [r|] eqn:Hrec; [|done].
    intros [= <-]. simpl. rewrite <- Hsame. by eapply IH.
  - destruct caught; by intros [= <-].
Qed.

(** X14. [deleteCollection] never deletes a record of another collection:
    whatever the batch size and whatever fails, every other collection
    holds the same records afterwards, provided paths identify records. *)
Theorem deleteCollection_spares_other_collections refStr b fs run other :
  NoDup (map doc_path (docs fs)) → other ≠ refStr →
  deleteCollection refStr b fs = Some run →
  in_collection other (docs (run_store run)) = in_collection other (docs fs).
Proof.
  intros Hnd Hother Hrun.
  eapply deleteQueryBatch_spares with (q := delete_query refStr b);
    [exact Hnd | exact Hother | exact Hrun].
Qed.

Lemma run_delete_query_inv refStr b table snaps :
  run_query (delete_query refStr b) table = Ok snaps →
  snaps = take (Z.to_nat b) (in_collection refStr table).
Proof.
  unfold run_query, delete_query. simpl. rewrite eval_clauses_name. simpl.
  destruct (b <? 0); [done|]. by intros [= <-].
Qed.

Lemma deleteQueryBatch_batches fuel caught refStr b fs run :
  NoDup (map doc_path (docs fs)) →
  _deleteQueryBatch fuel caught (delete_query refStr b) fs = Some run →
  ∃ j : nat,
    run_deleted run
      = map doc_path (take (j * Z.to_nat b) (in_collection refStr (docs fs))) ∧
    in_collection refStr (docs (run_store run))
      = drop (j * Z.to_nat b) (in_collection refStr (docs fs)).
Proof.
  revert caught fs run.
  induction fuel as [|fuel IH]; intros caught fs run Hnd; simpl; [done|].
  destruct (delete_round (delete_query refStr b) fs)
    as [[[refs [|]]|e] fs'] eqn:Hr;
    apply delete_round_cases in Hr as [[Hsame Hno]|Hgo].
  - intros [= <-]. exists 0%nat. simpl. by rewrite Hsame.
  - by destruct Hgo as (? & [=] & _).
  - by destruct (Hno refs).
  - destruct Hgo as (snaps & [= ->] & Hrun & _ & Hdocs).
    apply run_delete_query_inv in Hrun as ->.
    destruct (_deleteQueryBatch fuel false _ fs') as [r|] eqn:Hrec; [|done].
    intros [= <-]. simpl.
    apply IH in Hrec as (j & Hdel & Hrest).
    2:{ rewrite Hdocs. by apply remove_docs_paths_NoDup. }
    rewrite Hdocs, in_collection_remove in Hdel, Hrest by done.
    exists (S j). split.
    + rewrite Hdel, <- map_app. f_equal. simpl. apply take_take_drop.
    + rewrite Hrest, drop_drop. done.
  - destruct caught; intros [= <-]; exists 0%nat; simpl; by rewrite Hsame.
  - by destruct Hgo as (? & [=] & _).
Qed.

(** X15. Whatever fails and whenever, [deleteCollection] deletes whole
    batches from the head of the collection and nothing else: the records
    deleted are the first j batches of size batchSize in identity order,
    for some j, and the collection is left with the records after them. *)
Theorem deleteCollection_deletes_whole_batches refStr b fs run :
  NoDup (map doc_path (docs fs)) →
  deleteCollection refStr b fs = Some run →
  ∃ j : nat,
    run_deleted run
      = map doc_path (take (j * Z.to_nat b) (in_collection refStr (docs fs))) ∧
    in_collection refStr (docs (run_store run))
      = drop (j * Z.to_nat b) (in_collection refStr (docs fs)).
Proof.
  intros Hnd Hrun.
  eapply deleteQueryBatch_batches; [exact Hnd | exact Hrun].
Qed.

(** X16. The promise of [deleteCollection] is rejected exactly when the
    first round fails, and then with the error of that round; a failure in
    a later round never rejects it. *)
Theorem deleteCollection_rejects_iff_first_round_fails refStr b fs run e :
  deleteCollection refStr b fs = Some run →
  (run_promise run = Rejected e ↔
   ∃ fs', delete_round (delete_query refStr b) fs = (Err e, fs')).
Proof.
  intros Hrun. split.
  - by apply rejected_only_in_first_round.
  - intros [fs' Hr].
    rewrite (deleteCollection_first_round_failure _ _ _ _ _ Hr) in Hrun.
    by injection Hrun as <-.
Qed.

Lemma delete_round_stays_quiet q fs r fs' :
  faults fs = [] → delete_round q fs = (r, fs') → faults fs' = [].
Proof.
  intros Hf. unfold delete_round, bind.
  rewrite (query_get_ok q fs fs (engine_call_quiet _ Hf)).
  destruct (run_query q (docs fs)) as [snaps|e]; [|by intros [= <- <-]].
  destruct (length snaps =? 0)%nat; [by intros [= <- <-]|].
  unfold batch_commit, bind. rewrite (engine_call_quiet _ Hf).
  destruct (max_batch <? _)%nat; intros [= <- <-]; by simpl.
Qed.

Lemma deleteQueryBatch_stays_quiet fuel caught q fs run :
  faults fs = [] → _deleteQueryBatch fuel caught q fs = Some run →
  faults (run_store run) = [].
Proof.
  revert caught fs run.
  induction fuel as [|fuel IH]; intros caught fs run Hf; simpl; [done|].
  destruct (delete_round q fs) as [[[refs [|]]|e] fs'] eqn:Hr;
    pose proof (delete_round_stays_quiet _ _ _ _ Hf Hr) as Hf'.
  - by intros [= <-].
  - destruct (_deleteQueryBatch fuel false q fs') as [r|] eqn:Hrec; [|done].
    intros [= <-]. simpl. by eapply IH.
  - destruct caught; by intros [= <-].
Qed.

(** X17. After a [deleteCollection] that ran to its end over an engine
    that does not fail, [collectionQuery] on the same collection answers
    no record. *)
Theorem deleteCollection_then_collectionQuery_is_empty refStr b fs :
  NoDup (map doc_path (docs fs)) → faults fs = [] →
  0 < b ≤ Z.of_nat max_batch →
  ∃ run,
    deleteCollection refStr b fs = Some run ∧
    run_promise run = Resolved true ∧
    collectionQuery refStr [] None (run_store run) = (Ok [], run_store run).
Proof.
  intros Hnd Hf Hb.
  destruct (deleteQueryBatch_spec (S (length (docs fs))) true refStr b fs)
    as (run & Hrun & Hres & _ & _ & _ & _ & _ & _ & Hempty); try done.
  { unfold in_collection.
    pose proof (length_filter (λ d, doc_collection d = refStr) (docs fs)).
    lia. }
  exists run. split; [done|]. split; [done|].
  pose proof (deleteQueryBatch_stays_quiet _ _ _ _ _ Hf Hrun) as Hquiet.
  rewrite (collectionQuery_answers_whole_collection_aux refStr
             (run_store run) (run_store run) (engine_call_quiet _ Hquiet)).
  by rewrite Hempty.
Qed.

(** X18. On a collection without records [deleteCollection] asks once,
    deletes nothing and resolves to [true], for every batch size from 0
    up, over an engine that does not fail. *)
Theorem deleteCollection_of_empty_collection refStr b fs :
  faults fs = [] → 0 ≤ b → in_collection refStr (docs fs) = [] →
  deleteCollection refStr b fs
  = Some (mkRun (Resolved true) 1 [[]] [] None fs).
Proof.
  intros Hf Hb Hcoll. unfold deleteCollection. simpl.
  fold (delete_query refStr b).
  by rewrite (delete_round_empty refStr b fs Hf Hb Hcoll).
Qed.

End MoreDeleteFacts.

(* ===================================================================== *)
(** ** Further properties: sessions with constraints, resumed sessions    *)
(* ===================================================================== *)

Section MorePaginateFacts.
Context `{QueryEngine}.

(** X19. With constraints the engine accepts, a session from a cursor
    without position answers exactly the records the constraints select,
    in the engine's order, each once, in (number selected / p) + 1 calls. *)
Theorem pagination_respects_constraints refStr cs _cursor fs L fuel :
  let c := default default_cursor _cursor in
  let p := interval c in
  NoDup (map doc_path (docs fs)) → faults fs = [] →
  eval_clauses (map clause_of cs) (in_collection refStr (docs fs)) = Ok L →
  0 < p → startAfter c = None →
  Z.of_nat (length L) / p < Z.of_nat fuel →
  ∃ pages,
    paginate fuel refStr cs _cursor fs = Some (Ok pages, fs) ∧
    concat pages = map to_QR L ∧
    Z.of_nat (length pages) = Z.of_nat (length L) / p + 1.
Proof.
  intros c p Hnd Hf HL Hp Hsa Hfuel.
  destruct (paginate_from refStr cs fs L Hnd Hf HL fuel _cursor [] L)
    as (pages & Hpag & Hcat & Hlen & _); try done.
  by exists pages.
Qed.

(** X20. A session taken up again from a cursor whose [startAfter] is the
    path of a record answers exactly the records that follow that record,
    none of those before it and not the record itself. *)
Theorem pagination_resumes_after_position
    refStr cs c fs pre d R fuel :
  NoDup (map doc_path (docs fs)) → faults fs = [] →
  eval_clauses (map clause_of cs) (in_collection refStr (docs fs))
    = Ok (pre ++ d :: R) →
  0 < interval c → startAfter c = Some (doc_path d) →
  Z.of_nat (length R) / interval c < Z.of_nat fuel →
  ∃ pages,
    paginate fuel refStr cs (Some c) fs = Some (Ok pages, fs) ∧
    concat pages = map to_QR R.
Proof.
  intros Hnd Hf HL Hp Hsa Hfuel.
  destruct (paginate_from refStr cs fs (pre ++ d :: R) Hnd Hf HL fuel
              (Some c) (pre ++ [d]) R)
    as (pages & Hpag & Hcat & _); try done.
  - by rewrite <- app_assoc.
  - simpl. rewrite Hsa, map_app. simpl. by rewrite last_snoc.
  - by exists pages.
Qed.

End MorePaginateFacts.

(* ===================================================================== *)
(** ** The further properties at work                                     *)
(* ===================================================================== *)

Lemma collectionQuery_answers_whole_collection_witness :
  collectionQuery "items" [] None sample_store
  = (Ok (map to_QR (in_collection "items" (docs sample_store))),
     sample_store).
Proof.
  apply collectionQuery_answers_whole_collection. reflexivity.
Defined.

Lemma reads_hand_on_the_engine_error_witness :
  let fs := mkFirestore sample_docs [Some EUnavailable] in
  docQuery "items/a" None fs = (Err EUnavailable, sample_store) ∧
  collectionQuery "items" [] (Some (mkCursor 2 true (Some "items/a"))) fs
    = (Err EUnavailable, sample_store) ∧
  cursorQuery "items" [] (Some (mkCursor 2 true (Some "items/a"))) fs
    = (Err EUnavailable, sample_store).
Proof.
  intros fs. apply reads_hand_on_the_engine_error.
  - reflexivity.
  - reflexivity.
  - intros c [= <-] _. reflexivity.
Defined.

Lemma cursorQuery_storage_calls_witness :
  faults (mkFirestore sample_docs [None])
  = drop 2 [None; None; @None FsError].
Proof.
  eapply (cursorQuery_storage_calls "items" []
            (Some (mkCursor 2 true (Some "items/a")))
            (mkFirestore sample_docs [None; None; None]) _
            (mkFirestore sample_docs [None])).
  vm_compute. reflexivity.
Defined.

Lemma cursorQuery_page_is_bounded_witness :
  Z.of_nat (length (map to_QR (take 2 sample_docs))) ≤ 2.
Proof.
  apply (cursorQuery_page_is_bounded "items" []
           (Some (mkCursor 2 true None)) sample_store
           (map to_QR (take 2 sample_docs)) (mkCursor 2 true (Some "items/b"))
           sample_store).
  - vm_compute. reflexivity.
  - simpl. lia.
Defined.

Lemma empty_page_is_answered_again_witness :
  cursorQuery "items" [] (Some (mkCursor 2 false (Some "items/c")))
              sample_store
  = (Ok ([], mkCursor 2 false (Some "items/c")), sample_store).
Proof.
  apply (empty_page_is_answered_again "items" []
           (mkCursor 2 true (Some "items/c"))
           (mkCursor 2 false (Some "items/c")) sample_store sample_store).
  - reflexivity.
  - vm_compute. reflexivity.
Defined.

Lemma docQuery_answers_stored_record_witness :
  let d := mkDoc "items" "a" {[ "n" := VNum 1 ]} in
  docQuery (doc_path d) None sample_store
  = (Ok (Some (to_QR d)), sample_store).
Proof.
  intros d. apply (docQuery_answers_stored_record d None sample_store).
  - exact sample_paths_NoDup.
  - simpl. left.
  - reflexivity.
Defined.

Lemma queryData_of_docQuery_is_payload_witness :
  let b := mkDoc "items" "b" {[ "id" := VStr "mine"; "ref" := VNum 7 ]} in
  ∃ d, d ∈ docs sample_store ∧ doc_path d = "items/b" ∧
       queryData (to_QR b) = delete "ref" (delete "id" (doc_data d)) ∧
       (doc_data d !! "id" = None → doc_data d !! "ref" = None →
        queryData (to_QR b) = doc_data d).
Proof.
  intros b.
  apply (queryData_of_docQuery_is_payload "items/b" None sample_store
           (to_QR b) sample_store).
  vm_compute. reflexivity.
Defined.

Lemma deleteDoc_then_docQuery_is_null_witness :
  ∃ fs',
    deleteDoc "items/a" None sample_store = (Ok None, fs') ∧
    faults fs' = faults sample_store ∧
    (∀ d, d ∈ docs fs' ↔ d ∈ docs sample_store ∧ doc_path d ≠ "items/a") ∧
    (∀ fs'', engine_call fs' = (Ok tt, fs'') →
             docQuery "items/a" None fs' = (Ok None, fs'')).
Proof.
  apply (deleteDoc_then_docQuery_is_null "items/a" sample_store sample_store).
  - reflexivity.
  - reflexivity.
Defined.

Lemma two_collections_paths_NoDup : NoDup (map doc_path two_collections).
Proof. by_decision. Defined.

Lemma deleteCollection_spares_other_collections_witness :
  ∃ run,
    deleteCollection "items" 1 (mkFirestore two_collections []) = Some run ∧
    in_collection "users" (docs (run_store run))
    = in_collection "users" two_collections.
Proof.
  eexists. split; [vm_compute; reflexivity|].
  apply (deleteCollection_spares_other_collections "items" 1
           (mkFirestore two_collections []) _ "users").
  - exact two_collections_paths_NoDup.
  - discriminate.
  - vm_compute. reflexivity.
Defined.

Lemma two_items_paths_NoDup : NoDup (map doc_path two_items).
Proof. by_decision. Defined.

Lemma deleteCollection_deletes_whole_batches_witness :
  let run := mkRun Pending 2 [["items/a"]] ["items/a"] (Some EUnavailable)
                   (mkFirestore [mkDoc "items" "b" ∅] []) in
  ∃ j : nat,
    run_deleted run
      = map doc_path (take (j * Z.to_nat 1)
                           (in_collection "items" (docs fails_in_round_2))) ∧
    in_collection "items" (docs (run_store run))
      = drop (j * Z.to_nat 1) (in_collection "items" (docs fails_in_round_2)).
Proof.
  intros run.
  apply (deleteCollection_deletes_whole_batches "items" 1 fails_in_round_2 run).
  - exact two_items_paths_NoDup.
  - reflexivity.
Defined.

Lemma deleteCollection_rejects_iff_first_round_fails_witness :
  let fs := mkFirestore two_items [Some EUnavailable] in
  let run := mkRun (Rejected EUnavailable) 1 [] [] None
                   (mkFirestore two_items []) in
  run_promise run = Rejected EUnavailable ↔
  ∃ fs', delete_round (delete_query "items" 1) fs = (Err EUnavailable, fs').
Proof.
  intros fs run.
  apply (deleteCollection_rejects_iff_first_round_fails "items" 1 fs run).
  reflexivity.
Defined.

Lemma deleteCollection_then_collectionQuery_is_empty_witness :
  ∃ run,
    deleteCollection "items" 2 sample_store = Some run ∧
    run_promise run = Resolved true ∧
    collectionQuery "items" [] None (run_store run) = (Ok [], run_store run).
Proof.
  apply (deleteCollection_then_collectionQuery_is_empty "items" 2
           sample_store).
  - exact sample_paths_NoDup.
  - reflexivity.
  - unfold max_batch. lia.
Defined.

Lemma deleteCollection_of_empty_collection_witness :
  deleteCollection "archive" 0 sample_store
  = Some (mkRun (Resolved true) 1 [[]] [] None sample_store).
Proof.
  apply deleteCollection_of_empty_collection; [reflexivity | lia | reflexivity].
Defined.

Lemma pagination_respects_constraints_witness :
  ∃ pages,
    paginate 2 "items" [where_ "n" OpEq (VNum 1)]
             (Some (mkCursor 2 true None)) sample_store
      = Some (Ok pages, sample_store) ∧
    concat pages = map to_QR [mkDoc "items" "a" {[ "n" := VNum 1 ]}] ∧
    Z.of_nat (length pages) = Z.of_nat 1 / 2 + 1.
Proof.
  apply (pagination_respects_constraints "items"
           [where_ "n" OpEq (VNum 1)] (Some (mkCursor 2 true None))
           sample_store [mkDoc "items" "a" {[ "n" := VNum 1 ]}] 2).
  - exact sample_paths_NoDup.
  - reflexivity.
  - vm_compute. reflexivity.
  - simpl. lia.
  - reflexivity.
  - vm_compute. reflexivity.
Defined.

Lemma pagination_resumes_after_position_witness :
  ∃ pages,
    paginate 2 "items" [] (Some (mkCursor 2 true (Some "items/a")))
             sample_store
      = Some (Ok pages, sample_store) ∧
    concat pages = map to_QR (drop 1 sample_docs).
Proof.
  apply (pagination_resumes_after_position "items" []
           (mkCursor 2 true (Some "items/a")) sample_store []
           (mkDoc "items" "a" {[ "n" := VNum 1 ]}) (drop 1 sample_docs) 2).
  - exact sample_paths_NoDup.
  - reflexivity.
  - vm_compute. reflexivity.
  - simpl. lia.
  - reflexivity.
  - vm_compute. reflexivity.
Defined.
